(** * Process-lifecycle probes: execve tracer and lifecycle emitters

    Shallow embedding of [ebpf/src/execsnoop.bpf.c],
    [ebpf/include/execsnoop_types.h] and [ebpf/src/process_collector.bpf.c].

    Probe handlers are state transformers over the BPF maps they use; the
    kernel helpers they call are modelled after their documented contracts
    and read from an explicit description of the invocation context. *)

From Stdlib Require Import ZArith Lia.
From Stdlib Require Import Strings.Byte.
From stdpp Require Import base decidable option list gmap strings.
From Equations Require Import Equations.

Local Open Scope Z_scope.

(** ** Machine integers *)

(** Conversion to an unsigned 32-bit integer ([u32], [__u32], [uid_t]). *)
Definition u32 (x : Z) : Z := x mod 2 ^ 32.

(** Conversion to a signed 32-bit integer ([int], [__s32], [pid_t]). *)
Definition s32 (x : Z) : Z := (x + 2 ^ 31) mod 2 ^ 32 - 2 ^ 31.

(** Conversion to an unsigned 64-bit integer ([__u64]). *)
Definition u64 (x : Z) : Z := x mod 2 ^ 64.

(** ** Byte buffers *)

#[global] Instance byte_eq_dec : EqDecision byte := Byte.byte_eq_dec.

Definition NUL : byte := x00.

(** [memcpy]-style store of [data] into [buf] at byte offset [off]. *)
Definition write_at (buf : list byte) (off : Z) (data : list byte) : list byte :=
  take (Z.to_nat off) buf ++ data ++ drop (Z.to_nat off + length data) buf.

(** The bytes of a buffer that precede its first NUL. *)
Fixpoint until_nul (l : list byte) : list byte :=
  match l with
  | [] => []
  | b :: l' => if decide (b = NUL) then [] else b :: until_nul l'
  end.

(** ** Kernel side of an invocation

    What the helpers called by a handler observe: the CPU it runs on, the
    current task, and the user memory of that task. *)

Record kctx := {
  k_cpu : nat;                       (* execution unit *)
  k_pid_tgid : Z;                    (* bpf_get_current_pid_tgid() *)
  k_uid_gid : Z;                     (* bpf_get_current_uid_gid() *)
  k_real_parent_tgid : Z;            (* task->real_parent->tgid *)
  k_comm : list byte;                (* task->comm *)
  k_user_ptr : Z -> option Z;        (* pointer-sized user load, None on fault *)
  k_user_byte : Z -> option byte;    (* byte-sized user load, None on fault *)
}.

Definition EFAULT : Z := 14.
Definition E2BIG : Z := 7.

(** [bpf_probe_read_user(&p, sizeof(p), addr)] for a pointer-sized
    destination: returns the status and the value left in the destination,
    which the helper zeroes on a fault. *)
Definition bpf_probe_read_user_ptr (k : kctx) (addr : Z) : Z * Z :=
  match k_user_ptr k addr with
  | Some p => (0, p)
  | None => (- EFAULT, 0)
  end.

(** Bytes of the user string at [src] that precede its terminator, at most
    [count] of them; [None] when an unreadable byte is reached first. *)
Fixpoint strncpy_from_user (k : kctx) (src : Z) (count : nat) : option (list byte) :=
  match count with
  | O => Some []
  | S c =>
      match k_user_byte k src with
      | None => None
      | Some b =>
          if decide (b = NUL) then Some []
          else cons b <$> strncpy_from_user k (src + 1) c
      end
  end.

(** [bpf_probe_read_user_str(&buf[off], size, src)]: copies a NUL-terminated
    string; when the string does not fit, [size - 1] bytes are copied and the
    last byte is set to NUL. Returns the number of bytes written including
    the terminator, or a negative error after zeroing the destination. *)
Definition bpf_probe_read_user_str (k : kctx) (buf : list byte) (off size src : Z)
  : Z * list byte :=
  if size <=? 0 then (0, buf)
  else
    match strncpy_from_user k src (Z.to_nat size) with
    | None => (- EFAULT, write_at buf off (replicate (Z.to_nat size) NUL))
    | Some bs =>
        if size <=? Z.of_nat (length bs)
        then (size, write_at buf off (take (Z.to_nat (size - 1)) bs ++ [NUL]))
        else (Z.of_nat (length bs) + 1, write_at buf off (bs ++ [NUL]))
    end.

(** [bpf_get_current_comm(buf, size)]: the task name, cut to [size - 1]
    bytes and NUL-padded to [size]. *)
Definition bpf_get_current_comm (k : kctx) (size : Z) : list byte :=
  let name := take (Z.to_nat (size - 1)) (until_nul (k_comm k)) in
  name ++ replicate (Z.to_nat size - length name) NUL.

(** [bpf_map_update_elem(map, key, value, BPF_ANY)] on a hash map of
    [max_entries] slots: an existing key is overwritten, a new key is
    inserted while there is room, otherwise the map is left as it is. *)
Definition bpf_map_update_elem {V} (max_entries : Z) (m : gmap Z V) (key : Z) (v : V)
  : Z * gmap Z V :=
  match m !! key with
  | Some _ => (0, <[key := v]> m)
  | None =>
      if Z.of_nat (size m) <? max_entries then (0, <[key := v]> m)
      else (- E2BIG, m)
  end.

(** * The execve tracer *)

Module Execsnoop.

Definition DEFAULT_MAXARGS : Z := 20.
Definition TASK_COMM_LEN : Z := 16.
Definition ARGSIZE : Z := 128.
Definition TOTAL_MAX_ARGS : Z := 60.
Definition FULL_MAX_ARGS_ARR : Z := TOTAL_MAX_ARGS * ARGSIZE.

(** [struct execsnoop_event] *)
Record execsnoop_event := {
  pid : Z;
  ppid : Z;
  uid : Z;
  retval : Z;
  args_count : Z;
  args_size : Z;
  comm : list byte;
}.

(** [struct event] *)
Record event := {
  base : execsnoop_event;
  args : list byte;
}.

#[global] Instance execsnoop_event_eq_dec : EqDecision execsnoop_event.
Proof. solve_decision. Defined.
#[global] Instance event_eq_dec : EqDecision event.
Proof. solve_decision. Defined.

Definition set_pid (v : Z) (e : event) : event :=
  {| base := {| pid := v; ppid := ppid (base e); uid := uid (base e);
                retval := retval (base e); args_count := args_count (base e);
                args_size := args_size (base e); comm := comm (base e) |};
     args := args e |}.
Definition set_ppid (v : Z) (e : event) : event :=
  {| base := {| pid := pid (base e); ppid := v; uid := uid (base e);
                retval := retval (base e); args_count := args_count (base e);
                args_size := args_size (base e); comm := comm (base e) |};
     args := args e |}.
Definition set_uid (v : Z) (e : event) : event :=
  {| base := {| pid := pid (base e); ppid := ppid (base e); uid := v;
                retval := retval (base e); args_count := args_count (base e);
                args_size := args_size (base e); comm := comm (base e) |};
     args := args e |}.
Definition set_retval (v : Z) (e : event) : event :=
  {| base := {| pid := pid (base e); ppid := ppid (base e); uid := uid (base e);
                retval := v; args_count := args_count (base e);
                args_size := args_size (base e); comm := comm (base e) |};
     args := args e |}.
Definition set_args_count (v : Z) (e : event) : event :=
  {| base := {| pid := pid (base e); ppid := ppid (base e); uid := uid (base e);
                retval := retval (base e); args_count := v;
                args_size := args_size (base e); comm := comm (base e) |};
     args := args e |}.
Definition set_args_size (v : Z) (e : event) : event :=
  {| base := {| pid := pid (base e); ppid := ppid (base e); uid := uid (base e);
                retval := retval (base e); args_count := args_count (base e);
                args_size := v; comm := comm (base e) |};
     args := args e |}.
Definition set_comm (v : list byte) (e : event) : event :=
  {| base := {| pid := pid (base e); ppid := ppid (base e); uid := uid (base e);
                retval := retval (base e); args_count := args_count (base e);
                args_size := args_size (base e); comm := v |};
     args := args e |}.
Definition set_args (v : list byte) (e : event) : event :=
  {| base := base e; args := v |}.

(** ** The bounded argument scan (lines 71-100 of the begin probe) *)

(** Outcome of one execution of the loop body. *)
Inductive loop_ctl := Continue (e : event) | Break (e : event).

Section scan.
Variable k : kctx.
Variable argv : Z.      (* ctx->args[1] *)
Variable max_args : Z.  (* const volatile int max_args *)

Definition remaining_space (e : event) : Z :=
  s32 (u32 (FULL_MAX_ARGS_ARR - args_size (base e))).

Definition read_size (e : event) : Z :=
  if remaining_space e <? ARGSIZE then remaining_space e else ARGSIZE.

Definition scan_body (i : Z) (e : event) : loop_ctl :=
  let argp := snd (bpf_probe_read_user_ptr k (argv + 8 * i)) in
  if argp =? 0 then Break e
  else if remaining_space e <=? 0 then Break e
  else
    let '(r, buf) :=
      bpf_probe_read_user_str k (args e) (args_size (base e)) (read_size e) argp in
    let ret := s32 r in
    let e1 := set_args buf e in
    if 0 <? ret then
      if FULL_MAX_ARGS_ARR <? u32 (args_size (base e1) + ret) then Break e1
      else
        Continue (set_args_size (u32 (args_size (base e1) + ret))
                    (set_args_count (s32 (args_count (base e1) + 1)) e1))
    else Break e1.

(** The [for] loop from index [i] on. Besides the event it leaves, the
    result lists the event on entry to every body execution. *)
Equations? scan_loop (i : Z) (e : event) : event * list event
  by wf (Z.to_nat (DEFAULT_MAXARGS - i)) lt :=
  scan_loop i e with decide (i < DEFAULT_MAXARGS ∧ i < max_args) := {
    | right _ => (e, [])
    | left Hc with scan_body i e := {
        | Break e1 => (e1, [e])
        | Continue e1 =>
            let r := scan_loop (i + 1) e1 in (fst r, e :: snd r) } }.
Proof. unfold DEFAULT_MAXARGS in *. lia. Qed.

End scan.

(** ** Maps of the tracer and the two handlers *)

(** [bpf_get_current_pid_tgid() >> 32] stored in a [pid_t]: the process id
    both handlers use as correlation key. *)
Definition current_pid (k : kctx) : Z := s32 (Z.shiftr (u64 (k_pid_tgid k)) 32).

(** Field initialisation of the scratch event (lines 62-69). *)
Definition init_event (k : kctx) (e : event) : event :=
  let uid := u32 (k_uid_gid k) in
  let pid := current_pid k in
  let e := set_pid pid e in
  let e := set_uid uid e in
  let e := set_retval 0 e in
  let e := set_args_count 0 e in
  let e := set_args_size 0 e in
  set_ppid (s32 (k_real_parent_tgid k)) e.

(** A zero-filled [struct event], the initial content of a map slot. *)
Definition event_zero : event :=
  {| base := {| pid := 0; ppid := 0; uid := 0; retval := 0; args_count := 0;
                args_size := 0; comm := replicate (Z.to_nat TASK_COMM_LEN) NUL |};
     args := replicate (Z.to_nat FULL_MAX_ARGS_ARR) NUL |}.

Record state := {
  heap : gmap nat event;   (* per-CPU array of one slot; by CPU, absent = untouched *)
  execs : gmap Z event;    (* hash map, 10240 entries, keyed by pid_t *)
  events : list event;     (* records submitted to the ring buffer, oldest first *)
}.

Definition execs_max_entries : Z := 10240.
Definition heap_max_entries : Z := 1.

(** [bpf_map_lookup_elem(&heap, &key)] on the per-CPU array. *)
Definition heap_lookup (st : state) (cpu : nat) (key : Z) : option event :=
  if (0 <=? key) && (key <? heap_max_entries)
  then Some (default event_zero (heap st !! cpu))
  else None.

(** [bpf_probe_read_kernel(dst, size, src)] between two event trailers. *)
Definition bpf_probe_read_kernel (dst : list byte) (size : Z) (src : list byte) : list byte :=
  write_at dst 0 (take (Z.to_nat size) src).

Definition tracepoint__syscalls__sys_enter_execve
    (max_args : Z) (k : kctx) (argv : Z) (st : state) : state :=
  let zero := 0 in
  let pid := current_pid k in
  match heap_lookup st (k_cpu k) zero with
  | None => st
  | Some event =>
      let event := init_event k event in
      let event := fst (scan_loop k argv max_args 0 event) in
      {| heap := <[k_cpu k := event]> (heap st);
         execs := snd (bpf_map_update_elem execs_max_entries (execs st) pid event);
         events := events st |}
  end.

(** Lines 127-140 of the end probe: the reserved record [e] is filled from the
    correlation entry and the current task. *)
Definition fill_record (k : kctx) (entry e : event) : event :=
  let event := entry in
  let e := set_pid (pid (base event)) e in
  let e := set_ppid (ppid (base event)) e in
  let e := set_uid (uid (base event)) e in
  let e := set_retval (retval (base event)) e in
  let e := set_args_count (args_count (base event)) e in
  let e := set_args_size (args_size (base event)) e in
  let e := set_comm (bpf_get_current_comm k TASK_COMM_LEN) e in
  if (0 <? args_size (base event)) && (args_size (base event) <=? FULL_MAX_ARGS_ARR)
  then set_args (bpf_probe_read_kernel (args e) (args_size (base event)) (args event)) e
  else e.

(** [reserved] is what [bpf_ringbuf_reserve(&events, sizeof(struct event), 0)]
    returns in this invocation: [None] when the ring buffer has no room,
    otherwise the reserved memory with whatever it held before. *)
Definition tracepoint__syscalls__sys_exit_execve
    (k : kctx) (ret : Z) (reserved : option event) (st : state) : state :=
  let pid := current_pid k in
  match execs st !! pid with
  | None => st
  | Some event =>
      let event := set_retval (s32 ret) event in
      let execs1 := <[pid := event]> (execs st) in
      match reserved with
      | None =>
          {| heap := heap st; execs := delete pid execs1; events := events st |}
      | Some e =>
          let e := fill_record k event e in
          {| heap := heap st; execs := delete pid execs1; events := events st ++ [e] |}
      end
  end.

(** One probe invocation, and sequences of them. *)
Inductive call :=
  | SysEnterExecve (k : kctx) (argv : Z)
  | SysExitExecve (k : kctx) (ret : Z) (reserved : option event).

Definition call_pid (c : call) : Z :=
  match c with
  | SysEnterExecve k _ => current_pid k
  | SysExitExecve k _ _ => current_pid k
  end.

Definition step (max_args : Z) (st : state) (c : call) : state :=
  match c with
  | SysEnterExecve k argv => tracepoint__syscalls__sys_enter_execve max_args k argv st
  | SysExitExecve k ret reserved => tracepoint__syscalls__sys_exit_execve k ret reserved st
  end.

Definition run (max_args : Z) (st : state) (cs : list call) : state :=
  foldl (step max_args) st cs.

Definition initial_state : state := {| heap := ∅; execs := ∅; events := [] |}.

(** ** Notions used to state the properties *)

(** The header fields the scan never writes. *)
Definition identity (e : event) : Z * Z * Z * Z * list byte :=
  (pid (base e), ppid (base e), uid (base e), retval (base e), comm (base e)).

(** Whether [bpf_map_update_elem(&execs, &p, ..., BPF_ANY)] succeeds in [st]:
    the key is there or a slot is free. *)
Definition has_room (st : state) (p : Z) : Prop :=
  is_Some (execs st !! p) \/ Z.of_nat (size (execs st)) < execs_max_entries.

(** The event the begin probe assembles in its scratch slot. *)
Definition assembled (max_args : Z) (k : kctx) (argv : Z) (st : state) : event :=
  fst (scan_loop k argv max_args 0
         (init_event k (default event_zero (heap st !! k_cpu k)))).

(** ** Argument vectors in user memory *)

(** The NUL-free string [s] and its terminator are readable at [p]. *)
Fixpoint str_at (k : kctx) (p : Z) (s : list byte) : Prop :=
  match s with
  | [] => k_user_byte k p = Some NUL
  | b :: s' => b <> NUL /\ k_user_byte k p = Some b /\ str_at k (p + 1) s'
  end.

(** A NULL-terminated pointer array at [a] whose entries [ptrs] point to the
    strings [strs]. *)
Fixpoint argv_at (k : kctx) (a : Z) (ptrs : list Z) (strs : list (list byte)) : Prop :=
  match ptrs, strs with
  | [], [] => k_user_ptr k a = Some 0
  | p :: ptrs', s :: strs' =>
      p <> 0 /\ k_user_ptr k a = Some p /\ str_at k p s /\
      argv_at k (a + 8) ptrs' strs'
  | _, _ => False
  end.

(** The trailer encoding of a list of strings, and its decoder. *)
Definition encode_args (strs : list (list byte)) : list byte :=
  concat (map (fun s => s ++ [NUL]) strs).

Fixpoint decode_from (cur : list byte) (l : list byte) : list (list byte) :=
  match l with
  | [] => []
  | b :: l' =>
      if decide (b = NUL) then rev cur :: decode_from [] l'
      else decode_from (b :: cur) l'
  end.

(** Strings held by the first [args_size] bytes of an event's trailer. *)
Definition decode_args (e : event) : list (list byte) :=
  decode_from [] (take (Z.to_nat (args_size (base e))) (args e)).

(** The trailer invariant: the byte count is within the capacity of the
    trailer, the trailer has its declared size, and its first [args_size]
    bytes are [args_count] NUL-terminated strings laid end to end. *)
Definition trailer_inv (e : event) : Prop :=
  0 <= args_size (base e) <= FULL_MAX_ARGS_ARR /\
  length (args e) = Z.to_nat FULL_MAX_ARGS_ARR /\
  exists strs : list (list byte),
    Z.of_nat (length strs) = args_count (base e) /\
    Forall (fun s => NUL ∉ s) strs /\
    take (Z.to_nat (args_size (base e))) (args e) = encode_args strs.

(** The destination window of the string read issued from [e] lies inside
    the trailer. *)
Definition window_ok (e : event) : Prop :=
  0 < remaining_space e ->
  0 < read_size e <= ARGSIZE /\
  args_size (base e) + read_size e <= FULL_MAX_ARGS_ARR.

(** Two events carry the same capture: the fields the begin probe sets
    agree, and so do the first [args_size] bytes of the trailers. *)
Definition same_capture (e e' : event) : Prop :=
  pid (base e) = pid (base e') /\ ppid (base e) = ppid (base e') /\
  uid (base e) = uid (base e') /\ retval (base e) = retval (base e') /\
  args_count (base e) = args_count (base e') /\
  args_size (base e) = args_size (base e') /\
  take (Z.to_nat (args_size (base e))) (args e) =
  take (Z.to_nat (args_size (base e))) (args e').

(** The identity fields hold values of their declared 32-bit types. *)
Definition ids_ok (e : event) : Prop :=
  - 2 ^ 31 <= pid (base e) < 2 ^ 31 /\
  - 2 ^ 31 <= ppid (base e) < 2 ^ 31 /\
  0 <= uid (base e) < 2 ^ 32.

(** Map contents the handlers rely on: every scratch slot has the size of a
    trailer, every correlation entry satisfies the trailer invariant, holds
    well-typed identity fields and records the process id it is filed under. *)
Definition wf_state (st : state) : Prop :=
  map_Forall (fun _ e => length (args e) = Z.to_nat FULL_MAX_ARGS_ARR) (heap st) /\
  map_Forall (fun key e => trailer_inv e /\ pid (base e) = key /\ ids_ok e) (execs st).

(** A reservation, when it succeeds, yields memory of [sizeof(struct event)]. *)
Definition slot_ok (c : call) : Prop :=
  match c with
  | SysExitExecve _ _ (Some slot) => length (args slot) = Z.to_nat FULL_MAX_ARGS_ARR
  | _ => True
  end.

(** Shape of a submitted record. *)
Definition record_ok (ev : event) : Prop :=
  ids_ok ev /\
  - 2 ^ 31 <= retval (base ev) < 2 ^ 31 /\
  length (comm (base ev)) = Z.to_nat TASK_COMM_LEN /\
  trailer_inv ev.

(** ** A concrete run: [ls -l] executed by process 100 *)

Definition bytes_of (s : string) : list byte := String.list_byte_of_string s.

Definition ls_memory : list byte :=
  bytes_of "/bin/ls" ++ [NUL] ++ bytes_of "-l" ++ [NUL].

Definition ls_user_ptr (a : Z) : option Z :=
  if a =? 4096 then Some 8192
  else if a =? 4104 then Some 8200
  else if a =? 4112 then Some 0
  else None.

Definition ls_user_byte (a : Z) : option byte :=
  if a <? 8192 then None else ls_memory !! Z.to_nat (a - 8192).

Definition ls_begin : kctx :=
  {| k_cpu := 0; k_pid_tgid := 100 * 2 ^ 32 + 100; k_uid_gid := 0;
     k_real_parent_tgid := 1; k_comm := bytes_of "bash" ++ [NUL];
     k_user_ptr := ls_user_ptr; k_user_byte := ls_user_byte |}.

Definition ls_end : kctx :=
  {| k_cpu := 1; k_pid_tgid := 100 * 2 ^ 32 + 100; k_uid_gid := 0;
     k_real_parent_tgid := 1; k_comm := bytes_of "ls" ++ [NUL];
     k_user_ptr := ls_user_ptr; k_user_byte := ls_user_byte |}.

(** The same memory seen through a vector of 21 arguments, each "-l". *)
Definition long_user_ptr (a : Z) : option Z :=
  if (4096 <=? a) && (a <? 4096 + 8 * 21) && ((a - 4096) mod 8 =? 0) then Some 8200
  else if a =? 4096 + 8 * 21 then Some 0
  else None.

Definition long_begin : kctx :=
  {| k_cpu := 0; k_pid_tgid := 100 * 2 ^ 32 + 100; k_uid_gid := 0;
     k_real_parent_tgid := 1; k_comm := bytes_of "bash" ++ [NUL];
     k_user_ptr := long_user_ptr; k_user_byte := ls_user_byte |}.

Definition ls_run : state :=
  run DEFAULT_MAXARGS initial_state
    [SysEnterExecve ls_begin 4096; SysExitExecve ls_end 0 (Some event_zero)].

(** ** Further notions: what a scan captures, and kinds of invocations *)

(** The strings a scan captures when every read gets a full window: the
    pointer array is walked from index [i] for at most [n] entries, up to the
    first NULL or unreadable pointer or the first unreadable string; each
    string is cut to [ARGSIZE - 1] bytes. *)
Fixpoint captured_args (k : kctx) (argv : Z) (n : nat) (i : Z) : list (list byte) :=
  match n with
  | O => []
  | S n' =>
      match k_user_ptr k (argv + 8 * i) with
      | None => []
      | Some p =>
          if p =? 0 then []
          else
            match strncpy_from_user k p (Z.to_nat ARGSIZE) with
            | None => []
            | Some bs =>
                take (Z.to_nat (ARGSIZE - 1)) bs :: captured_args k argv n' (i + 1)
            end
      end
  end.

(** The first entries [ptrs] of the pointer array at [a] point to the strings
    [strs]; nothing is said of what follows them. *)
Fixpoint argv_prefix_at (k : kctx) (a : Z) (ptrs : list Z) (strs : list (list byte))
  : Prop :=
  match ptrs, strs with
  | [], [] => True
  | p :: ptrs', s :: strs' =>
      p <> 0 /\ k_user_ptr k a = Some p /\ str_at k p s /\
      argv_prefix_at k (a + 8) ptrs' strs'
  | _, _ => False
  end.

Definition is_begin (c : call) : bool :=
  match c with
  | SysEnterExecve _ _ => true
  | SysExitExecve _ _ _ => false
  end.

(** The CPU whose scratch slot an invocation writes, if it writes one. *)
Definition scratch_cpu (c : call) : option nat :=
  match c with
  | SysEnterExecve k _ => Some (k_cpu k)
  | SysExitExecve _ _ _ => None
  end.

(** ** Further concrete contexts *)

(** A pointer array that runs into unmapped memory after two entries. *)
Definition unterminated_begin : kctx :=
  {| k_cpu := 0; k_pid_tgid := 100 * 2 ^ 32 + 100; k_uid_gid := 0;
     k_real_parent_tgid := 1; k_comm := bytes_of "bash" ++ [NUL];
     k_user_ptr := fun a => if a =? 4096 then Some 8192
                            else if a =? 4104 then Some 8200 else None;
     k_user_byte := ls_user_byte |}.


(** One argument of 200 bytes. *)
Definition longarg_begin : kctx :=
  {| k_cpu := 0; k_pid_tgid := 100 * 2 ^ 32 + 100; k_uid_gid := 0;
     k_real_parent_tgid := 1; k_comm := bytes_of "bash" ++ [NUL];
     k_user_ptr := fun a => if a =? 4096 then Some 16384
                            else if a =? 4104 then Some 0 else None;
     k_user_byte := fun a => if (16384 <=? a) && (a <? 16584) then Some "a"%byte
                             else if a =? 16584 then Some NUL else None |}.

(** Three arguments, the second of 200 bytes: "-l", 200 times "a", "-l". *)
Definition middle_long_begin : kctx :=
  {| k_cpu := 0; k_pid_tgid := 100 * 2 ^ 32 + 100; k_uid_gid := 0;
     k_real_parent_tgid := 1; k_comm := bytes_of "bash" ++ [NUL];
     k_user_ptr := fun a => if a =? 4096 then Some 8200
                            else if a =? 4104 then Some 16384
                            else if a =? 4112 then Some 8200
                            else if a =? 4120 then Some 0 else None;
     k_user_byte := fun a => if (16384 <=? a) && (a <? 16584) then Some "a"%byte
                             else if a =? 16584 then Some NUL
                             else ls_user_byte a |}.

(** A correlation table with no free slot, held by process ids 1000..11239. *)
Definition small_event : event :=
  {| base := {| pid := 0; ppid := 0; uid := 0; retval := 0; args_count := 0;
                args_size := 0; comm := [] |};
     args := [] |}.

Definition full_table_state : state :=
  {| heap := ∅;
     execs := list_to_map (map (fun i => (i, small_event)) (seqZ 1000 10240));
     events := [] |}.

End Execsnoop.

(** * The lifecycle emitters *)

Module ProcessCollector.

(** [struct process_event] *)
Record process_event := {
  pid : Z;
  ppid : Z;
  uid : Z;
  gid : Z;
  comm : list byte;
  timestamp : Z;
  exit_code : Z;
  event_type : Z;   (* 0=fork, 1=exec, 2=exit *)
}.

(** The fields of the current [task_struct] that the handlers read. A
    pointer field is [None] when the pointer is NULL. *)
Record task_struct := {
  t_pid : Z;
  t_comm : list byte;
  t_real_parent : option Z;       (* real_parent->pid *)
  t_real_cred : option (Z * Z);   (* real_cred->uid.val, real_cred->gid.val *)
  t_exit_code : Z;
}.

Record state := {
  process_stats : gmap Z Z;              (* hash map, 1024 entries, __u32 -> __u64 *)
  process_events : list process_event;   (* records submitted, oldest first *)
  discarded : nat;                       (* reserved records given back unsent *)
}.

Definition process_stats_max_entries : Z := 1024.

(** [KERNEL_VERSION(a, b, c)] of bpf_helpers.h, applied to the [int]
    arguments of the version checks: shifts and sums are those of a 32-bit
    [int] and wrap around. *)
Definition KERNEL_VERSION (a b c : Z) : Z :=
  s32 (Z.shiftl a 16 + Z.shiftl b 8 + (if 255 <? c then 255 else c)).

Definition kernel_version_ge (LINUX_VERSION_CODE major minor patch : Z) : bool :=
  KERNEL_VERSION major minor patch <=? LINUX_VERSION_CODE.

(** [bpf_probe_read_kernel_str(dst, size, src)]: the string up to its
    terminator, cut to [size - 1] bytes, then a NUL; what follows in [dst] is
    left as it was. *)
Definition bpf_probe_read_kernel_str (dst : list byte) (size : Z) (src : list byte)
  : list byte :=
  if size <=? 0 then dst
  else write_at dst 0 (take (Z.to_nat (size - 1)) (until_nul src) ++ [NUL]).

(** [BPF_CORE_READ_STR_INTO(dst, task, comm)] with [dst] the array
    [event->comm]: libbpf issues the string read with the size of what [dst]
    points to, which for an array of [char] is the size of one element. *)
Definition BPF_CORE_READ_STR_INTO (dst src : list byte) : list byte :=
  let sizeof_deref_dst := 1 in
  bpf_probe_read_kernel_str dst sizeof_deref_dst src.

Definition update_process_stats (pid : Z) (stats : gmap Z Z) : gmap Z Z :=
  match stats !! pid with
  | Some count => <[pid := u64 (count + 1)]> stats
  | None =>
      let initial_count := 1 in
      snd (bpf_map_update_elem process_stats_max_entries stats pid initial_count)
  end.

Definition populate_event_common (event : process_event) (task : task_struct)
    (ktime : Z) : Z * process_event :=
  let event :=
    {| pid := u32 (t_pid task);
       ppid := ppid event; uid := uid event; gid := gid event;
       comm := BPF_CORE_READ_STR_INTO (comm event) (t_comm task);
       timestamp := timestamp event; exit_code := exit_code event;
       event_type := event_type event |} in
  let event :=
    match t_real_parent task with
    | Some parent_pid =>
        {| pid := pid event; ppid := u32 parent_pid; uid := uid event;
           gid := gid event; comm := comm event; timestamp := timestamp event;
           exit_code := exit_code event; event_type := event_type event |}
    | None => event
    end in
  let event :=
    match t_real_cred task with
    | Some (uid_val, gid_val) =>
        {| pid := pid event; ppid := ppid event; uid := u32 uid_val;
           gid := u32 gid_val; comm := comm event; timestamp := timestamp event;
           exit_code := exit_code event; event_type := event_type event |}
    | None => event
    end in
  (0, {| pid := pid event; ppid := ppid event; uid := uid event; gid := gid event;
         comm := comm event; timestamp := u64 ktime; exit_code := exit_code event;
         event_type := event_type event |}).

Definition set_kind (kind code : Z) (e : process_event) : process_event :=
  {| pid := pid e; ppid := ppid e; uid := uid e; gid := gid e; comm := comm e;
     timestamp := timestamp e; exit_code := code; event_type := kind |}.

(** The three tracepoint handlers. [task] is the current task, [ktime] the
    value of [bpf_ktime_get_ns()], [reserved] the result of the ring-buffer
    reservation ([None] when there is no room). *)
Definition trace_process_fork (task : task_struct) (ktime : Z)
    (reserved : option process_event) (st : state) : state :=
  match reserved with
  | None => st
  | Some event =>
      let '(r, event) := populate_event_common event task ktime in
      if r <? 0 then
        {| process_stats := process_stats st; process_events := process_events st;
           discarded := S (discarded st) |}
      else
        let event := set_kind 0 0 event in
        {| process_stats := update_process_stats (pid event) (process_stats st);
           process_events := process_events st ++ [event];
           discarded := discarded st |}
  end.

Definition trace_process_exec (task : task_struct) (ktime : Z)
    (reserved : option process_event) (st : state) : state :=
  match reserved with
  | None => st
  | Some event =>
      let '(r, event) := populate_event_common event task ktime in
      if r <? 0 then
        {| process_stats := process_stats st; process_events := process_events st;
           discarded := S (discarded st) |}
      else
        let event := set_kind 1 0 event in
        {| process_stats := update_process_stats (pid event) (process_stats st);
           process_events := process_events st ++ [event];
           discarded := discarded st |}
  end.

Definition trace_process_exit (task : task_struct) (ktime : Z)
    (reserved : option process_event) (st : state) : state :=
  match reserved with
  | None => st
  | Some event =>
      let '(r, event) := populate_event_common event task ktime in
      if r <? 0 then
        {| process_stats := process_stats st; process_events := process_events st;
           discarded := S (discarded st) |}
      else
        let event := set_kind 2 (u32 (t_exit_code task)) event in
        {| process_stats := update_process_stats (pid event) (process_stats st);
           process_events := process_events st ++ [event];
           discarded := discarded st |}
  end.

(** The optional kprobe, compiled under [CORE_SUPPORT_FULL]. *)
Definition kprobe_do_fork (LINUX_VERSION_CODE : Z) (task : task_struct) (st : state)
  : state :=
  if kernel_version_ge LINUX_VERSION_CODE 4 18 0 then
    let pid := u32 (t_pid task) in
    {| process_stats := update_process_stats pid (process_stats st);
       process_events := process_events st; discarded := discarded st |}
  else st.

Inductive call :=
  | Fork (task : task_struct) (ktime : Z) (reserved : option process_event)
  | Exec (task : task_struct) (ktime : Z) (reserved : option process_event)
  | Exit (task : task_struct) (ktime : Z) (reserved : option process_event)
  | KprobeDoFork (LINUX_VERSION_CODE : Z) (task : task_struct).

Definition step (st : state) (c : call) : state :=
  match c with
  | Fork task ktime reserved => trace_process_fork task ktime reserved st
  | Exec task ktime reserved => trace_process_exec task ktime reserved st
  | Exit task ktime reserved => trace_process_exit task ktime reserved st
  | KprobeDoFork code task => kprobe_do_fork code task st
  end.

Definition run (st : state) (cs : list call) : state := foldl step st cs.

(** The process id for which an invocation submits a record, if it does. *)
Definition emits_for (c : call) : option Z :=
  match c with
  | Fork task _ (Some _) | Exec task _ (Some _) | Exit task _ (Some _) =>
      Some (u32 (t_pid task))
  | _ => None
  end.

Definition initial_state : state :=
  {| process_stats := ∅; process_events := []; discarded := 0 |}.

(** A reservation, when it succeeds, yields memory of
    [sizeof(struct process_event)]: its name field has 16 bytes. *)
Definition slot_ok (c : call) : Prop :=
  match c with
  | Fork _ _ (Some slot) | Exec _ _ (Some slot) | Exit _ _ (Some slot) =>
      length (comm slot) = 16%nat
  | _ => True
  end.

(** Shape of a submitted record. *)
Definition record_ok (ev : process_event) : Prop :=
  0 <= pid ev < 2 ^ 32 /\
  length (comm ev) = 16%nat /\
  0 <= timestamp ev < 2 ^ 64 /\
  0 <= exit_code ev < 2 ^ 32 /\
  0 <= event_type ev <= 2.

(** ** A concrete state: the counter table filled by process ids 1..1024 *)

Definition full_stats : gmap Z Z :=
  list_to_map (map (fun i => (i, 1)) (seqZ 1 1024)).

Definition full_state : state :=
  {| process_stats := full_stats; process_events := []; discarded := 0 |}.

Definition task_5000 : task_struct :=
  {| t_pid := 5000; t_comm := [NUL]; t_real_parent := Some 1;
     t_real_cred := Some (0, 0); t_exit_code := 0 |}.

Definition process_event_zero : process_event :=
  {| pid := 0; ppid := 0; uid := 0; gid := 0; comm := replicate 16 NUL;
     timestamp := 0; exit_code := 0; event_type := 0 |}.

(** ** Further notions *)

Definition kernel_version_le (LINUX_VERSION_CODE major minor patch : Z) : bool :=
  LINUX_VERSION_CODE <=? KERNEL_VERSION major minor patch.

Definition is_kprobe (c : call) : bool :=
  match c with
  | KprobeDoFork _ _ => true
  | _ => false
  end.

(** Number of submitted records that carry process id [p]. *)
Definition records_for (p : Z) (evs : list process_event) : nat :=
  length (filter (fun ev => pid ev = p) evs).

(** The counter of [p], read as 0 when the table has no entry for it. *)
Definition counter (st : state) (p : Z) : Z := default 0 (process_stats st !! p).

(** What [populate_event_common] makes of the reserved memory [slot]: the
    fields it reads from the task, and the fields it leaves as they were when
    a pointer of the task is NULL. *)
Definition populated (task : task_struct) (ktime : Z) (slot ev : process_event) : Prop :=
  pid ev = u32 (t_pid task) /\
  timestamp ev = u64 ktime /\
  ppid ev = match t_real_parent task with
            | Some parent_pid => u32 parent_pid
            | None => ppid slot
            end /\
  (uid ev, gid ev) = match t_real_cred task with
                     | Some (uid_val, gid_val) => (u32 uid_val, u32 gid_val)
                     | None => (uid slot, gid slot)
                     end.

(** [LINUX_VERSION_CODE] as core_helpers.h defines it when the build does not. *)
Definition DEFAULT_LINUX_VERSION_CODE : Z := 0.

(** Version triples in lexicographic order. *)
Definition version_le (a b c a' b' c' : Z) : Prop :=
  a < a' \/ (a = a' /\ (b < b' \/ (b = b' /\ c <= c'))).

(** A task whose parent and credential pointers are NULL, and reserved
    memory that still holds an earlier record. *)
Definition orphan_task : task_struct :=
  {| t_pid := 77; t_comm := [NUL]; t_real_parent := None; t_real_cred := None;
     t_exit_code := 256 |}.

Definition used_slot : process_event :=
  {| pid := 5; ppid := 6; uid := 1000; gid := 1000; comm := replicate 16 NUL;
     timestamp := 9; exit_code := 3; event_type := 2 |}.

End ProcessCollector.

(** * Properties of the execve tracer *)

Module ExecsnoopSpec.
Import Execsnoop.

(** ** Machine-integer facts *)

Lemma s32_small x : - 2 ^ 31 <= x < 2 ^ 31 -> s32 x = x.
Proof. intros H. unfold s32. rewrite Z.mod_small; lia. Qed.

Lemma u32_small x : 0 <= x < 2 ^ 32 -> u32 x = x.
Proof. intros H. unfold u32. apply Z.mod_small; lia. Qed.

Lemma u32_range x : 0 <= u32 x < 2 ^ 32.
Proof. unfold u32. apply Z.mod_pos_bound. lia. Qed.

Lemma s32_range x : - 2 ^ 31 <= s32 x < 2 ^ 31.
Proof. unfold s32. pose proof (Z.mod_pos_bound (x + 2 ^ 31) (2 ^ 32)). lia. Qed.

(** ** Frame properties of the scan: only the counters and the trailer move *)

Lemma scan_body_identity k argv i e :
  match scan_body k argv i e with
  | Continue e' | Break e' => identity e' = identity e
  end.
Proof.
  unfold scan_body.
  destruct (_ =? 0); [done|].
  destruct (_ <=? 0); [done|].
  destruct (bpf_probe_read_user_str _ _ _ _ _) as [r buf].
  destruct (0 <? s32 r); [|done].
  by destruct (_ <? _).
Qed.

(** Induction along the iterations of the loop. *)
Section scan_induction.
Context (k : kctx) (argv max_args : Z).
Context (P : Z -> event -> event * list event -> Prop).
Hypothesis Hexit : forall i e,
  ~ (i < DEFAULT_MAXARGS /\ i < max_args) -> P i e (e, []).
Hypothesis Hbreak : forall i e e1,
  i < DEFAULT_MAXARGS /\ i < max_args ->
  scan_body k argv i e = Break e1 -> P i e (e1, [e]).
Hypothesis Hcont : forall i e e1,
  i < DEFAULT_MAXARGS /\ i < max_args ->
  scan_body k argv i e = Continue e1 ->
  P (i + 1) e1 (scan_loop k argv max_args (i + 1) e1) ->
  P i e (fst (scan_loop k argv max_args (i + 1) e1),
         e :: snd (scan_loop k argv max_args (i + 1) e1)).

Lemma scan_loop_elim i e : P i e (scan_loop k argv max_args i e).
Proof using Hexit Hbreak Hcont.
  funelim (scan_loop k argv max_args i e); eauto.
Qed.
End scan_induction.

Lemma scan_loop_identity k argv max_args i e :
  identity (fst (scan_loop k argv max_args i e)) = identity e.
Proof.
  apply (scan_loop_elim k argv max_args (fun _ e r => identity (fst r) = identity e));
    clear i e; simpl.
  - done.
  - intros i e e1 _ Hb. pose proof (scan_body_identity k argv i e) as H.
    by rewrite Hb in H.
  - intros i e e1 _ Hb IH. pose proof (scan_body_identity k argv i e) as H.
    rewrite Hb in H. congruence.
Qed.

(** ** Frame properties of the handlers *)

Lemma update_elem_lookup_ne {V} n (m : gmap Z V) key v q :
  q <> key -> snd (bpf_map_update_elem n m key v) !! q = m !! q.
Proof.
  intros Hne. unfold bpf_map_update_elem.
  destruct (m !! key); simpl; [by rewrite lookup_insert_ne|].
  destruct (_ <? _); simpl; [by rewrite lookup_insert_ne|done].
Qed.

Lemma update_elem_status {V} n (m : gmap Z V) key v :
  fst (bpf_map_update_elem n m key v) = 0 <->
  is_Some (m !! key) \/ Z.of_nat (size m) < n.
Proof.
  unfold bpf_map_update_elem. destruct (m !! key) eqn:Hm; simpl.
  - split; [eauto|done].
  - destruct (Z.ltb_spec (Z.of_nat (size m)) n); simpl.
    + split; [eauto|done].
    + split; [unfold E2BIG; lia|]. intros [[? ?]|?]; [done|lia].
Qed.

Lemma update_elem_lookup_ok {V} n (m : gmap Z V) key v :
  is_Some (m !! key) \/ Z.of_nat (size m) < n ->
  snd (bpf_map_update_elem n m key v) !! key = Some v.
Proof.
  intros Hroom. unfold bpf_map_update_elem. destruct (m !! key) eqn:Hm; simpl.
  - apply lookup_insert_eq.
  - destruct (Z.ltb_spec (Z.of_nat (size m)) n); simpl.
    + apply lookup_insert_eq.
    + destruct Hroom as [[? ?]|?]; [done|lia].
Qed.

Lemma heap_lookup_zero st cpu :
  heap_lookup st cpu 0 = Some (default event_zero (heap st !! cpu)).
Proof. reflexivity. Qed.

Lemma enter_unfold max_args k argv st :
  tracepoint__syscalls__sys_enter_execve max_args k argv st =
  {| heap := <[k_cpu k := assembled max_args k argv st]> (heap st);
     execs := snd (bpf_map_update_elem execs_max_entries (execs st) (current_pid k)
                     (assembled max_args k argv st));
     events := events st |}.
Proof. reflexivity. Qed.

Lemma enter_events max_args k argv st :
  events (tracepoint__syscalls__sys_enter_execve max_args k argv st) = events st.
Proof. by rewrite enter_unfold. Qed.

Lemma enter_execs_other max_args k argv st q :
  q <> current_pid k ->
  execs (tracepoint__syscalls__sys_enter_execve max_args k argv st) !! q = execs st !! q.
Proof. intros Hne. rewrite enter_unfold. cbn [execs]. by apply update_elem_lookup_ne. Qed.

Lemma exit_execs_other k ret reserved st q :
  q <> current_pid k ->
  execs (tracepoint__syscalls__sys_exit_execve k ret reserved st) !! q = execs st !! q.
Proof.
  intros Hne. unfold tracepoint__syscalls__sys_exit_execve.
  destruct (execs st !! current_pid k); [|done].
  destruct reserved; cbn [execs]; by rewrite lookup_delete_ne, lookup_insert_ne.
Qed.

Lemma step_execs_other max_args st c q :
  call_pid c <> q -> execs (step max_args st c) !! q = execs st !! q.
Proof.
  destruct c; simpl; intros Hne.
  - by apply enter_execs_other.
  - by apply exit_execs_other.
Qed.

Lemma run_execs_other max_args cs st q :
  Forall (fun c => call_pid c <> q) cs ->
  execs (run max_args st cs) !! q = execs st !! q.
Proof.
  unfold run. revert st. induction cs as [|c cs IH]; intros st Hall; simpl; [done|].
  inversion Hall; subst. rewrite IH by done. by apply step_execs_other.
Qed.

Lemma fill_record_base k entry e :
  base (fill_record k entry e) =
  {| pid := pid (base entry); ppid := ppid (base entry); uid := uid (base entry);
     retval := retval (base entry); args_count := args_count (base entry);
     args_size := args_size (base entry);
     comm := bpf_get_current_comm k TASK_COMM_LEN |}.
Proof. unfold fill_record. by destruct (_ && _). Qed.

Lemma assembled_identity max_args k argv st :
  pid (base (assembled max_args k argv st)) = current_pid k /\
  ppid (base (assembled max_args k argv st)) = s32 (k_real_parent_tgid k) /\
  uid (base (assembled max_args k argv st)) = u32 (k_uid_gid k).
Proof.
  pose proof (scan_loop_identity k argv max_args 0
                (init_event k (default event_zero (heap st !! k_cpu k)))) as H.
  unfold identity in H. fold (assembled max_args k argv st) in H.
  injection H as -> -> -> _ _. done.
Qed.

(** ** Byte buffers *)

Lemma length_write_at buf off data :
  (Z.to_nat off + length data <= length buf)%nat ->
  length (write_at buf off data) = length buf.
Proof.
  intros Hfit. unfold write_at.
  rewrite !length_app, length_take, length_drop. lia.
Qed.

Lemma take_write_at_before buf off data n :
  (n <= Z.to_nat off)%nat -> (Z.to_nat off <= length buf)%nat ->
  take n (write_at buf off data) = take n buf.
Proof.
  intros Hn Hoff. unfold write_at.
  rewrite take_app_le by (rewrite length_take; lia).
  rewrite take_take. f_equal. lia.
Qed.

Lemma take_write_at_through buf off data :
  (Z.to_nat off <= length buf)%nat ->
  take (Z.to_nat off + length data)%nat (write_at buf off data) =
  take (Z.to_nat off) buf ++ data.
Proof.
  intros Hoff. unfold write_at.
  rewrite app_assoc.
  rewrite take_app_length'; [done|].
  rewrite length_app, length_take. lia.
Qed.

(** ** The string-read helper *)

Lemma strncpy_from_user_nul_free k src count bs :
  strncpy_from_user k src count = Some bs -> (NUL ∉ bs) /\ (length bs <= count)%nat.
Proof.
  revert src bs. induction count as [|c IH]; intros src bs; simpl.
  - intros [= <-]. split; [apply not_elem_of_nil|simpl; lia].
  - destruct (k_user_byte k src) as [b|]; [|done].
    destruct (decide (b = NUL)) as [->|Hb].
    + intros [= <-]. split; [apply not_elem_of_nil|simpl; lia].
    + destruct (strncpy_from_user k (src + 1) c) as [bs'|] eqn:Hrec; [|done].
      simpl. intros [= <-]. destruct (IH _ _ Hrec) as [Hfree Hlen].
      split; [|simpl; lia].
      rewrite not_elem_of_cons. split; [congruence|done].
Qed.

Lemma strncpy_from_user_str_at k p s count :
  str_at k p s -> (length s < count)%nat -> strncpy_from_user k p count = Some s.
Proof.
  revert p count. induction s as [|b s IH]; intros p count; simpl.
  - intros Hnul Hlen. destruct count as [|c]; [lia|]. simpl.
    rewrite Hnul. by rewrite decide_True.
  - intros (Hb & Hread & Hrest) Hlen. destruct count as [|c]; [lia|]. simpl.
    rewrite Hread, decide_False by done.
    rewrite (IH (p + 1) c) by (done || lia). done.
Qed.

(** What a call of the helper with a positive size can do, whatever the
    destination holds: fail and zero the window, or write a NUL-terminated
    chunk of the length it returns. *)
Lemma read_user_str_cases k off size src :
  0 < size ->
  (forall buf, bpf_probe_read_user_str k buf off size src =
     (- EFAULT, write_at buf off (replicate (Z.to_nat size) NUL))) \/
  (exists s, (NUL ∉ s) /\ Z.of_nat (length s) + 1 <= size /\
     forall buf, bpf_probe_read_user_str k buf off size src =
       (Z.of_nat (length s) + 1, write_at buf off (s ++ [NUL]))).
Proof.
  intros Hsize. unfold bpf_probe_read_user_str.
  destruct (Z.leb_spec size 0); [lia|].
  destruct (strncpy_from_user k src (Z.to_nat size)) as [bs|] eqn:Hcopy.
  - right. apply strncpy_from_user_nul_free in Hcopy as [Hfree Hlen].
    destruct (Z.leb_spec size (Z.of_nat (length bs))).
    + exists (take (Z.to_nat (size - 1)) bs). split_and!.
      * intros Hin. apply Hfree.
        rewrite <- (take_drop (Z.to_nat (size - 1)) bs). apply elem_of_app. by left.
      * rewrite length_take. lia.
      * intros buf. f_equal. rewrite length_take. lia.
    + exists bs. split_and!; [done|lia|done].
  - by left.
Qed.

Lemma read_user_str_at k buf off size p s :
  str_at k p s -> Z.of_nat (length s) < size ->
  bpf_probe_read_user_str k buf off size p =
  (Z.of_nat (length s) + 1, write_at buf off (s ++ [NUL])).
Proof.
  intros Hs Hlen. unfold bpf_probe_read_user_str.
  destruct (Z.leb_spec size 0); [lia|].
  rewrite (strncpy_from_user_str_at k p s) by (done || lia).
  destruct (Z.leb_spec size (Z.of_nat (length s))); [lia|done].
Qed.

(** ** One iteration of the scan *)

Ltac unfold_sizes :=
  unfold FULL_MAX_ARGS_ARR, TOTAL_MAX_ARGS, ARGSIZE, DEFAULT_MAXARGS, EFAULT in *.

Lemma remaining_space_eq e :
  0 <= args_size (base e) <= FULL_MAX_ARGS_ARR ->
  remaining_space e = FULL_MAX_ARGS_ARR - args_size (base e).
Proof.
  intros H. unfold remaining_space. unfold_sizes.
  rewrite u32_small by lia. apply s32_small. lia.
Qed.

Lemma window_ok_of_size e :
  0 <= args_size (base e) <= FULL_MAX_ARGS_ARR -> window_ok e.
Proof.
  intros H Hrem. unfold read_size. rewrite remaining_space_eq in * by done.
  unfold_sizes. destruct (Z.ltb_spec (60 * 128 - args_size (base e)) 128); lia.
Qed.

(** The three ways an iteration can go from an event whose byte count is
    within capacity: leave without touching the event, leave after a failed
    read that zeroed its window, or accept one NUL-terminated chunk. Which
    one, and the bytes written, depend on the byte count alone, not on what
    the rest of the event holds. *)
Lemma scan_body_cases k argv i e0 :
  0 <= args_size (base e0) <= FULL_MAX_ARGS_ARR ->
  (forall e, args_size (base e) = args_size (base e0) ->
     scan_body k argv i e = Break e) \/
  (args_size (base e0) + read_size e0 <= FULL_MAX_ARGS_ARR /\ 0 < read_size e0 /\
   forall e, args_size (base e) = args_size (base e0) ->
     scan_body k argv i e =
       Break (set_args (write_at (args e) (args_size (base e))
                          (replicate (Z.to_nat (read_size e0)) NUL)) e)) \/
  exists s,
    (NUL ∉ s) /\
    Z.of_nat (length s) + 1 <= read_size e0 /\
    args_size (base e0) + read_size e0 <= FULL_MAX_ARGS_ARR /\
    forall e, args_size (base e) = args_size (base e0) ->
      scan_body k argv i e =
        Continue
          (set_args_size (args_size (base e) + (Z.of_nat (length s) + 1))
             (set_args_count (s32 (args_count (base e) + 1))
                (set_args (write_at (args e) (args_size (base e)) (s ++ [NUL])) e))).
Proof.
  intros Hsize.
  assert (Hframe : forall e, args_size (base e) = args_size (base e0) ->
            remaining_space e = remaining_space e0 /\ read_size e = read_size e0).
  { intros e He. unfold read_size, remaining_space. by rewrite He. }
  destruct (Z.eqb_spec (snd (bpf_probe_read_user_ptr k (argv + 8 * i))) 0)
    as [Hnull|Hptr].
  { left. intros e He. unfold scan_body. by rewrite Hnull. }
  destruct (Z.leb_spec (remaining_space e0) 0) as [Hfull|Hrem].
  { left. intros e He. unfold scan_body. destruct (Hframe e He) as [-> _].
    destruct (Z.eqb_spec (snd (bpf_probe_read_user_ptr k (argv + 8 * i))) 0); [done|].
    by destruct (Z.leb_spec (remaining_space e0) 0); [|lia]. }
  destruct (window_ok_of_size e0 Hsize Hrem) as [Hrs Hfit].
  destruct (read_user_str_cases k (args_size (base e0)) (read_size e0)
              (snd (bpf_probe_read_user_ptr k (argv + 8 * i))))
    as [Hfault|(s & Hfree & Hle & Hread)]; [lia| |].
  - right; left. split_and!; [lia|lia|].
    intros e He. unfold scan_body. destruct (Hframe e He) as [-> ->].
    destruct (Z.eqb_spec (snd (bpf_probe_read_user_ptr k (argv + 8 * i))) 0); [done|].
    destruct (Z.leb_spec (remaining_space e0) 0); [lia|].
    rewrite He, Hfault.
    unfold_sizes. rewrite s32_small by lia. done.
  - right; right. exists s. split_and!; [done|done|lia|].
    intros e He. unfold scan_body. destruct (Hframe e He) as [-> ->].
    destruct (Z.eqb_spec (snd (bpf_probe_read_user_ptr k (argv + 8 * i))) 0); [done|].
    destruct (Z.leb_spec (remaining_space e0) 0); [lia|].
    rewrite He, Hread.
    cbn [set_args base args_size].
    rewrite s32_small by (unfold_sizes; lia).
    destruct (Z.ltb_spec 0 (Z.of_nat (length s) + 1)); [|lia].
    rewrite He.
    rewrite u32_small by (unfold_sizes; lia).
    destruct (Z.ltb_spec FULL_MAX_ARGS_ARR
                (args_size (base e0) + (Z.of_nat (length s) + 1))); [lia|done].
Qed.

Lemma encode_args_snoc strs s :
  encode_args (strs ++ [s]) = encode_args strs ++ s ++ [NUL].
Proof.
  unfold encode_args. rewrite map_app, concat_app. simpl. by rewrite app_nil_r.
Qed.

Lemma encode_args_length strs : (length strs <= length (encode_args strs))%nat.
Proof.
  unfold encode_args. induction strs as [|s strs IH]; simpl; [lia|].
  rewrite !length_app. simpl. lia.
Qed.

(** An iteration preserves the trailer invariant, whichever way it goes. *)
Lemma scan_body_inv k argv i e :
  trailer_inv e ->
  match scan_body k argv i e with
  | Continue e' | Break e' => trailer_inv e'
  end.
Proof.
  intros Hinv. pose proof Hinv as (Hsize & Hlen & strs & Hcount & Hfree & Hpre).
  destruct (scan_body_cases k argv i e Hsize)
    as [Hb|[(Hfit & Hrs & Hb)|(s & Hs & Hle & Hfit & Hb)]];
    rewrite (Hb e eq_refl); [exact Hinv| |].
  - unfold trailer_inv. cbn [set_args base args]. split_and!; [lia|lia| |].
    + rewrite length_write_at; [done|]. rewrite length_replicate. lia.
    + exists strs. split_and!; [done|done|].
      rewrite take_write_at_before by lia. done.
  - unfold trailer_inv.
    cbn [set_args set_args_size set_args_count base args args_size args_count].
    split_and!; [lia|lia| |].
    + rewrite length_write_at; [done|]. rewrite length_app. simpl. lia.
    + exists (strs ++ [s]). split_and!.
      * pose proof (encode_args_length strs) as Hn.
        rewrite <- Hpre, length_take in Hn.
        rewrite s32_small by (unfold_sizes; lia).
        rewrite length_app. simpl. lia.
      * apply Forall_app. split; [done|]. by apply Forall_singleton.
      * rewrite encode_args_snoc, <- Hpre.
        rewrite <- take_write_at_through by lia.
        f_equal. rewrite length_app. simpl. lia.
Qed.

(** ** The whole scan *)

Lemma scan_loop_unfold k argv max_args i e :
  scan_loop k argv max_args i e =
  if decide (i < DEFAULT_MAXARGS /\ i < max_args) then
    match scan_body k argv i e with
    | Break e1 => (e1, [e])
    | Continue e1 =>
        (fst (scan_loop k argv max_args (i + 1) e1),
         e :: snd (scan_loop k argv max_args (i + 1) e1))
    end
  else (e, []).
Proof.
  revert i e.
  apply (scan_loop_elim k argv max_args (fun j x r =>
    r = if decide (j < DEFAULT_MAXARGS /\ j < max_args) then
          match scan_body k argv j x with
          | Break e1 => (e1, [x])
          | Continue e1 =>
              (fst (scan_loop k argv max_args (j + 1) e1),
               x :: snd (scan_loop k argv max_args (j + 1) e1))
          end
        else (x, []))).
  - intros i e Hc. by rewrite decide_False.
  - intros i e e1 Hc Hb. by rewrite decide_True, Hb.
  - intros i e e1 Hc Hb _. by rewrite decide_True, Hb.
Qed.

Lemma init_event_trailer_inv k scratch :
  length (args scratch) = Z.to_nat FULL_MAX_ARGS_ARR ->
  trailer_inv (init_event k scratch).
Proof.
  intros Hlen. unfold trailer_inv, init_event.
  cbn [set_pid set_uid set_retval set_args_count set_args_size set_ppid
       base args args_size args_count].
  split_and!; [lia|unfold_sizes; lia|done|].
  exists []. split_and!; [done|constructor|done].
Qed.

Lemma scan_loop_inv k argv max_args i e :
  trailer_inv e ->
  Forall (fun e' => trailer_inv e' /\ window_ok e')
    (fst (scan_loop k argv max_args i e) :: snd (scan_loop k argv max_args i e)).
Proof.
  assert (Hw : forall e', trailer_inv e' -> trailer_inv e' /\ window_ok e').
  { intros e' H. split; [done|]. apply window_ok_of_size, H. }
  apply (scan_loop_elim k argv max_args (fun _ e r =>
    trailer_inv e -> Forall (fun e' => trailer_inv e' /\ window_ok e') (fst r :: snd r)));
    clear i e; cbn [fst snd].
  - intros i e _ He. repeat constructor; by apply Hw.
  - intros i e e1 _ Hb He. pose proof (scan_body_inv k argv i e He) as H1.
    rewrite Hb in H1. repeat constructor; by apply Hw.
  - intros i e e1 _ Hb IH He. pose proof (scan_body_inv k argv i e He) as H1.
    rewrite Hb in H1. specialize (IH H1). inversion IH; subst.
    constructor; [done|]. constructor; [by apply Hw|done].
Qed.

Lemma scan_body_count k argv i e :
  match scan_body k argv i e with
  | Continue e' => args_count (base e') = s32 (args_count (base e) + 1)
  | Break e' => args_count (base e') = args_count (base e)
  end.
Proof.
  unfold scan_body.
  destruct (_ =? 0); [done|].
  destruct (_ <=? 0); [done|].
  destruct (bpf_probe_read_user_str _ _ _ _ _) as [r buf].
  destruct (0 <? s32 r); [|done].
  by destruct (_ <? _).
Qed.

Lemma scan_loop_length k argv max_args i e :
  Z.of_nat (length (snd (scan_loop k argv max_args i e)))
  <= Z.max 0 (Z.min DEFAULT_MAXARGS max_args - i).
Proof.
  apply (scan_loop_elim k argv max_args (fun i _ r =>
    Z.of_nat (length (snd r)) <= Z.max 0 (Z.min DEFAULT_MAXARGS max_args - i)));
    clear i e; cbn [fst snd length].
  - lia.
  - lia.
  - lia.
Qed.

Lemma scan_loop_count k argv max_args i e :
  0 <= args_count (base e) ->
  args_count (base e) + Z.of_nat (length (snd (scan_loop k argv max_args i e))) < 2 ^ 31 ->
  args_count (base e) <= args_count (base (fst (scan_loop k argv max_args i e)))
  <= args_count (base e) + Z.of_nat (length (snd (scan_loop k argv max_args i e))).
Proof.
  apply (scan_loop_elim k argv max_args (fun _ e r =>
    0 <= args_count (base e) ->
    args_count (base e) + Z.of_nat (length (snd r)) < 2 ^ 31 ->
    args_count (base e) <= args_count (base (fst r))
    <= args_count (base e) + Z.of_nat (length (snd r))));
    clear i e; cbn [fst snd length].
  - lia.
  - intros i e e1 _ Hb. pose proof (scan_body_count k argv i e) as H.
    rewrite Hb in H. lia.
  - intros i e e1 _ Hb IH H0 Hlt. pose proof (scan_body_count k argv i e) as H.
    rewrite Hb in H. rewrite s32_small in H by lia. lia.
Qed.

(** ** Reading a well-formed argument vector *)

Lemma str_at_nul_free k p s : str_at k p s -> NUL ∉ s.
Proof.
  revert p. induction s as [|b s IH]; intros p; simpl.
  - intros _. apply not_elem_of_nil.
  - intros (Hb & _ & Hrest). apply not_elem_of_cons. split; [congruence|eauto].
Qed.

Lemma argv_at_nul_free k a ptrs strs :
  argv_at k a ptrs strs -> Forall (fun s => NUL ∉ s) strs.
Proof.
  revert a strs. induction ptrs as [|p ptrs IH]; intros a [|s strs]; simpl; try done.
  intros (_ & _ & Hs & Hrest). constructor; [by eapply str_at_nul_free|eauto].
Qed.

Lemma decode_from_chunk cur s rest :
  NUL ∉ s ->
  decode_from cur (s ++ [NUL] ++ rest) = (rev cur ++ s) :: decode_from [] rest.
Proof.
  revert cur. induction s as [|b s IH]; intros cur Hs; simpl.
  - by rewrite app_nil_r.
  - apply not_elem_of_cons in Hs as [Hb Hs].
    rewrite decide_False by congruence.
    change (s ++ NUL :: rest) with (s ++ [NUL] ++ rest). rewrite IH by done.
    simpl. by rewrite <- app_assoc.
Qed.

Lemma decode_encode_args strs :
  Forall (fun s => NUL ∉ s) strs -> decode_from [] (encode_args strs) = strs.
Proof.
  unfold encode_args. induction 1 as [|s strs Hs _ IH]; simpl; [done|].
  rewrite <- app_assoc. rewrite decode_from_chunk by done. simpl. by rewrite IH.
Qed.

(** An iteration whose pointer leads to a readable string shorter than
    [ARGSIZE], with a full window available, accepts exactly that string. *)
Lemma scan_body_str k argv i e p s :
  k_user_ptr k (argv + 8 * i) = Some p -> p <> 0 ->
  str_at k p s -> Z.of_nat (length s) < ARGSIZE ->
  0 <= args_size (base e) -> args_size (base e) + ARGSIZE <= FULL_MAX_ARGS_ARR ->
  0 <= args_count (base e) < 2 ^ 31 - 1 ->
  scan_body k argv i e =
    Continue
      (set_args_size (args_size (base e) + (Z.of_nat (length s) + 1))
         (set_args_count (args_count (base e) + 1)
            (set_args (write_at (args e) (args_size (base e)) (s ++ [NUL])) e))).
Proof.
  intros Hptr Hp Hs Hlen Hsz Hfit Hcnt. unfold scan_body, bpf_probe_read_user_ptr.
  rewrite Hptr. cbn [snd].
  destruct (Z.eqb_spec p 0); [done|].
  rewrite remaining_space_eq by (unfold_sizes; lia).
  destruct (Z.leb_spec (FULL_MAX_ARGS_ARR - args_size (base e)) 0);
    [unfold_sizes; lia|].
  assert (Hrs : read_size e = ARGSIZE).
  { unfold read_size. rewrite remaining_space_eq by (unfold_sizes; lia).
    destruct (Z.ltb_spec (FULL_MAX_ARGS_ARR - args_size (base e)) ARGSIZE);
      [lia|done]. }
  rewrite Hrs, (read_user_str_at k _ _ _ p s) by done.
  cbn [set_args base args_size args_count].
  rewrite s32_small by (unfold_sizes; lia).
  destruct (Z.ltb_spec 0 (Z.of_nat (length s) + 1)); [|lia].
  rewrite u32_small by (unfold_sizes; lia).
  destruct (Z.ltb_spec FULL_MAX_ARGS_ARR
              (args_size (base e) + (Z.of_nat (length s) + 1)));
    [unfold_sizes; lia|].
  rewrite s32_small by lia. done.
Qed.

Lemma scan_loop_argv k argv max_args strs : forall ptrs i e,
  0 <= i ->
  i + Z.of_nat (length strs) <= Z.min max_args DEFAULT_MAXARGS ->
  argv_at k (argv + 8 * i) ptrs strs ->
  Forall (fun s => Z.of_nat (length s) < ARGSIZE) strs ->
  0 <= args_size (base e) <= ARGSIZE * i ->
  0 <= args_count (base e) <= i ->
  length (args e) = Z.to_nat FULL_MAX_ARGS_ARR ->
  let e' := fst (scan_loop k argv max_args i e) in
  args_count (base e') = args_count (base e) + Z.of_nat (length strs) /\
  args_size (base e') = args_size (base e) + Z.of_nat (length (encode_args strs)) /\
  take (Z.to_nat (args_size (base e'))) (args e') =
    take (Z.to_nat (args_size (base e))) (args e) ++ encode_args strs.
Proof.
  induction strs as [|s strs IH]; intros [|p ptrs] i e Hi Hn Hargv Hlens Hsz Hcnt Hlen;
    simpl in Hargv; try done.
  - cbn zeta. rewrite scan_loop_unfold.
    assert (Hb : scan_body k argv i e = Break e).
    { unfold scan_body, bpf_probe_read_user_ptr. by rewrite Hargv. }
    rewrite Hb. destruct (decide _); cbn [fst length encode_args map concat];
      rewrite app_nil_r; split_and!; lia || done.
  - destruct Hargv as (Hp & Hptr & Hs & Hrest).
    inversion Hlens as [|? ? Hslen Hlens']; subst.
    cbn [length] in Hn.
    cbn zeta. rewrite scan_loop_unfold.
    rewrite decide_True by (unfold_sizes; lia).
    rewrite (scan_body_str k argv i e p s) by (done || unfold_sizes; lia).
    cbn [fst].
    set (e1 := set_args_size _ _).
    assert (He1len : length (args e1) = Z.to_nat FULL_MAX_ARGS_ARR).
    { unfold e1. cbn [set_args_size set_args_count set_args args].
      rewrite length_write_at; [done|]. rewrite length_app. simpl.
      unfold_sizes. lia. }
    destruct (IH ptrs (i + 1) e1) as (Hc' & Hs' & Ht'); try done.
    + lia.
    + lia.
    + by replace (argv + 8 * (i + 1)) with (argv + 8 * i + 8) by lia.
    + unfold e1. cbn [set_args_size set_args_count set_args base args_size].
      unfold_sizes. lia.
    + unfold e1. cbn [set_args_size set_args_count set_args base args_count]. lia.
    + rewrite Ht', Hc', Hs'. unfold e1.
      cbn [set_args_size set_args_count set_args base args args_size args_count].
      assert (Henc : encode_args (s :: strs) = s ++ [NUL] ++ encode_args strs).
      { unfold encode_args. simpl. by rewrite <- app_assoc. }
      rewrite Henc. split_and!.
      * cbn [length]. lia.
      * rewrite !length_app. simpl. lia.
      * replace (Z.to_nat (args_size (base e) + (Z.of_nat (length s) + 1)))
          with (Z.to_nat (args_size (base e)) + length (s ++ [NUL]))%nat
          by (rewrite length_app; simpl; lia).
        rewrite take_write_at_through by (unfold_sizes; lia).
        by rewrite <- !app_assoc.
Qed.

(** ** The bounded argument reader *)

(** C2, as the code has it. The loop bound is the smaller of [max_args] and
    the static [DEFAULT_MAXARGS]: for a NULL-terminated vector of [n] strings
    with [n] at most that bound, each string shorter than [ARGSIZE], the scan
    leaves [args_count = n], and the first [args_size] bytes of the trailer
    are the [n] strings, each followed by its NUL, in order; decoding them
    gives the strings back. *)
Theorem scan_captures_argv k argv max_args ptrs strs scratch :
  Z.of_nat (length strs) <= Z.min max_args DEFAULT_MAXARGS ->
  argv_at k argv ptrs strs ->
  Forall (fun s => Z.of_nat (length s) < ARGSIZE) strs ->
  length (args scratch) = Z.to_nat FULL_MAX_ARGS_ARR ->
  let e := fst (scan_loop k argv max_args 0 (init_event k scratch)) in
  args_count (base e) = Z.of_nat (length strs) /\
  args_size (base e) = Z.of_nat (length (encode_args strs)) /\
  take (Z.to_nat (args_size (base e))) (args e) = encode_args strs /\
  decode_args e = strs.
Proof.
  intros Hn Hargv Hlens Hlen e.
  destruct (scan_loop_argv k argv max_args strs ptrs 0 (init_event k scratch))
    as (Hc & Hs & Ht); try done.
  - by rewrite Z.mul_0_r, Z.add_0_r.
  - fold e in Hc, Hs, Ht.
    change (args_count (base (init_event k scratch))) with 0 in Hc.
    change (args_size (base (init_event k scratch))) with 0 in Hs, Ht.
    rewrite Z.add_0_l in Hc, Hs. cbn [Z.to_nat take app] in Ht.
    split_and!; [done|done|done|].
    unfold decode_args. rewrite Ht. apply decode_encode_args.
    by eapply argv_at_nul_free.
Qed.

Lemma scan_captures_argv_witness :
  let strs := [bytes_of "/bin/ls"; bytes_of "-l"] in
  let e := fst (scan_loop ls_begin 4096 DEFAULT_MAXARGS 0 (init_event ls_begin event_zero)) in
  args_count (base e) = Z.of_nat (length strs) /\
  args_size (base e) = Z.of_nat (length (encode_args strs)) /\
  take (Z.to_nat (args_size (base e))) (args e) = encode_args strs /\
  decode_args e = strs.
Proof.
  apply (scan_captures_argv ls_begin 4096 DEFAULT_MAXARGS [8192; 8200]
           [bytes_of "/bin/ls"; bytes_of "-l"] event_zero).
  - vm_compute. discriminate.
  - vm_compute. repeat split; discriminate.
  - repeat constructor.
  - vm_compute. reflexivity.
Defined.

(** C2 as stated fails above the static bound: with [max_args = 21] and a
    vector of 21 short strings, only 20 are captured. *)
Lemma scan_stops_at_static_bound :
  let strs := replicate 21 (bytes_of "-l") in
  let e := fst (scan_loop long_begin 4096 21 0 (init_event long_begin event_zero)) in
  Z.of_nat (length strs) <= 21 /\
  argv_at long_begin 4096 (replicate 21 8200) strs /\
  Forall (fun s => Z.of_nat (length s) < ARGSIZE) strs /\
  args_count (base e) = 20 /\
  args_count (base e) <> Z.of_nat (length strs).
Proof.
  split_and!.
  - vm_compute. discriminate.
  - vm_compute. repeat split; discriminate.
  - repeat constructor.
  - vm_compute. reflexivity.
  - vm_compute. discriminate.
Qed.

(** C3. Whatever the user memory holds, every event the scan goes through,
    from the initialised scratch event to the one it leaves, keeps
    [args_size] within the capacity of the trailer, keeps the trailer at its
    declared size, and has its first [args_size] bytes made of [args_count]
    NUL-terminated strings laid end to end from offset 0; and every string
    read is issued with a window that ends inside the trailer. *)
Theorem scan_stays_within_capacity k argv max_args scratch :
  length (args scratch) = Z.to_nat FULL_MAX_ARGS_ARR ->
  let r := scan_loop k argv max_args 0 (init_event k scratch) in
  Forall (fun e => trailer_inv e /\ window_ok e) (fst r :: snd r).
Proof.
  intros Hlen r. apply scan_loop_inv. by apply init_event_trailer_inv.
Qed.

Lemma scan_stays_within_capacity_witness :
  let r := scan_loop long_begin 4096 DEFAULT_MAXARGS 0 (init_event long_begin event_zero) in
  Forall (fun e => trailer_inv e /\ window_ok e) (fst r :: snd r).
Proof.
  apply (scan_stays_within_capacity long_begin 4096 DEFAULT_MAXARGS event_zero).
  vm_compute. reflexivity.
Defined.

(** C7, as the code has it. The loop body runs at most [DEFAULT_MAXARGS]
    times and at most [max (0, max_args)] times, for every user memory and
    every value of [max_args]; the number of captured strings is between 0
    and the number of body executions. *)
Theorem scan_iterations_bounded k argv max_args scratch :
  let r := scan_loop k argv max_args 0 (init_event k scratch) in
  Z.of_nat (length (snd r)) <= DEFAULT_MAXARGS /\
  Z.of_nat (length (snd r)) <= Z.max 0 max_args /\
  0 <= args_count (base (fst r)) <= Z.of_nat (length (snd r)).
Proof.
  intros r.
  pose proof (scan_loop_length k argv max_args 0 (init_event k scratch)) as Hlen.
  fold r in Hlen.
  pose proof (scan_loop_count k argv max_args 0 (init_event k scratch)) as Hcnt.
  fold r in Hcnt.
  change (args_count (base (init_event k scratch))) with 0 in Hcnt.
  unfold DEFAULT_MAXARGS in *. lia.
Qed.

(** C7 as stated fails for a negative tunable: nothing is captured, and 0 is
    more than [max_args = -1]. *)
Lemma scan_negative_max_args :
  let e := fst (scan_loop ls_begin 4096 (-1) 0 (init_event ls_begin event_zero)) in
  args_count (base e) = 0 /\ ~ args_count (base e) <= -1.
Proof. vm_compute. split; [reflexivity|]. intros H. by apply H. Qed.

(** ** Independence from the previous content of the scratch slot *)

Lemma same_capture_refl e : same_capture e e.
Proof. by unfold same_capture. Qed.

Lemma scan_body_same k argv i e e' :
  trailer_inv e -> trailer_inv e' -> same_capture e e' ->
  match scan_body k argv i e, scan_body k argv i e' with
  | Continue a, Continue b | Break a, Break b => same_capture a b
  | _, _ => False
  end.
Proof.
  intros (Hsize & Hlen & _) (_ & Hlen' & _) Hsame.
  pose proof Hsame as (Hpid & Hppid & Huid & Hret & Hcnt & Hsz & Hpre).
  destruct (scan_body_cases k argv i e Hsize)
    as [Hb|[(Hfit & Hrs & Hb)|(s & Hs & Hle & Hfit & Hb)]];
    rewrite (Hb e eq_refl), (Hb e' (eq_sym Hsz)); [done| |].
  - unfold same_capture. cbn [set_args base args]. rewrite <- Hsz.
    split_and!; try done.
    rewrite !take_write_at_before by lia. done.
  - unfold same_capture.
    cbn [set_args set_args_size set_args_count base args args_size args_count
         pid ppid uid retval].
    rewrite <- Hsz, <- Hcnt. split_and!; try done.
    replace (Z.to_nat (args_size (base e) + (Z.of_nat (length s) + 1)))
      with (Z.to_nat (args_size (base e)) + length (s ++ [NUL]))%nat
      by (rewrite length_app; simpl; lia).
    rewrite !take_write_at_through by lia. by rewrite Hpre.
Qed.

Lemma scan_loop_same k argv max_args i e e' :
  trailer_inv e -> trailer_inv e' -> same_capture e e' ->
  same_capture (fst (scan_loop k argv max_args i e))
               (fst (scan_loop k argv max_args i e')).
Proof.
  revert i e e'.
  refine (scan_loop_elim k argv max_args (fun j x r =>
    forall x', trailer_inv x -> trailer_inv x' -> same_capture x x' ->
               same_capture (fst r) (fst (scan_loop k argv max_args j x'))) _ _ _).
  - intros i e Hc e' _ _ Hsame. rewrite scan_loop_unfold, decide_False by done. done.
  - intros i e e1 Hc Hb e' He He' Hsame.
    rewrite scan_loop_unfold, decide_True by done.
    pose proof (scan_body_same k argv i e e' He He' Hsame) as H.
    rewrite Hb in H. by destruct (scan_body k argv i e').
  - intros i e e1 Hc Hb IH e' He He' Hsame.
    rewrite (scan_loop_unfold _ _ _ i e'), decide_True by done.
    pose proof (scan_body_same k argv i e e' He He' Hsame) as H.
    pose proof (scan_body_inv k argv i e He) as H1.
    pose proof (scan_body_inv k argv i e' He') as H1'.
    rewrite Hb in H, H1. destruct (scan_body k argv i e') as [e1'|]; [|done].
    cbn [fst]. by apply IH.
Qed.

Lemma fill_record_same k entry entry' slot :
  same_capture entry entry' ->
  fill_record k entry slot = fill_record k entry' slot.
Proof.
  intros (Hpid & Hppid & Huid & Hret & Hcnt & Hsz & Hpre).
  unfold fill_record, bpf_probe_read_kernel. cbn zeta.
  rewrite <- Hpid, <- Hppid, <- Huid, <- Hret, <- Hcnt, <- Hsz, <- Hpre. done.
Qed.

(** ** Invariants of the maps *)

Lemma event_zero_length : length (args event_zero) = Z.to_nat FULL_MAX_ARGS_ARR.
Proof. unfold event_zero. cbn [args]. apply length_replicate. Qed.

Lemma scratch_length st cpu :
  wf_state st ->
  length (args (default event_zero (heap st !! cpu))) = Z.to_nat FULL_MAX_ARGS_ARR.
Proof.
  intros [Hheap _]. destruct (heap st !! cpu) as [e|] eqn:He; cbn [default].
  - by apply (Hheap cpu e).
  - apply event_zero_length.
Qed.

Lemma assembled_inv max_args k argv st :
  wf_state st -> trailer_inv (assembled max_args k argv st).
Proof.
  intros Hwf. unfold assembled.
  pose proof (scan_loop_inv k argv max_args 0
    (init_event k (default event_zero (heap st !! k_cpu k)))
    (init_event_trailer_inv k _ (scratch_length st (k_cpu k) Hwf))) as H.
  inversion H as [|? ? [Hinv _] _]; subst. done.
Qed.

Lemma enter_wf max_args k argv st :
  wf_state st -> wf_state (tracepoint__syscalls__sys_enter_execve max_args k argv st).
Proof.
  intros Hwf. pose proof (assembled_inv max_args k argv st Hwf) as Hinv.
  destruct (assembled_identity max_args k argv st) as (Hpid & Hppid & Huid).
  assert (Hids : ids_ok (assembled max_args k argv st)).
  { unfold ids_ok. rewrite Hpid, Hppid, Huid.
    split_and!; (apply s32_range || apply u32_range). }
  destruct Hwf as [Hheap Hexecs]. rewrite enter_unfold. split; cbn [heap execs].
  - apply map_Forall_insert_2; [apply Hinv|done].
  - unfold bpf_map_update_elem. destruct (execs st !! current_pid k); cbn [snd].
    + by apply map_Forall_insert_2.
    + destruct (_ <? _); cbn [snd]; [by apply map_Forall_insert_2|done].
Qed.

Lemma exit_wf k ret reserved st :
  wf_state st -> wf_state (tracepoint__syscalls__sys_exit_execve k ret reserved st).
Proof.
  intros Hwf. unfold tracepoint__syscalls__sys_exit_execve.
  destruct (execs st !! current_pid k); [|done].
  destruct Hwf as [Hheap Hexecs].
  destruct reserved; split; cbn [heap execs]; try done;
    rewrite delete_insert_eq; by apply map_Forall_delete.
Qed.

Lemma step_wf max_args st c : wf_state st -> wf_state (step max_args st c).
Proof. destruct c; [apply enter_wf|apply exit_wf]. Qed.

Lemma run_wf max_args cs st : wf_state st -> wf_state (run max_args st cs).
Proof.
  unfold run. revert st. induction cs as [|c cs IH]; intros st Hwf; simpl; [done|].
  by apply IH, step_wf.
Qed.

Lemma initial_state_wf : wf_state initial_state.
Proof. split; apply map_Forall_empty. Qed.

(** Every state the handlers can reach from the empty maps is well formed. *)
Lemma reachable_wf max_args cs : wf_state (run max_args initial_state cs).
Proof. apply run_wf, initial_state_wf. Qed.

(** ** Submitted records *)

Lemma current_comm_length k :
  length (bpf_get_current_comm k TASK_COMM_LEN) = Z.to_nat TASK_COMM_LEN.
Proof.
  unfold bpf_get_current_comm. cbn zeta.
  rewrite length_app, length_replicate, length_take. unfold TASK_COMM_LEN. lia.
Qed.

Lemma fill_record_ok k entry slot :
  trailer_inv entry -> ids_ok entry ->
  - 2 ^ 31 <= retval (base entry) < 2 ^ 31 ->
  length (args slot) = Z.to_nat FULL_MAX_ARGS_ARR ->
  record_ok (fill_record k entry slot).
Proof.
  intros (Hsize & Hlen & strs & Hcount & Hfree & Hpre) Hids Hret Hslot.
  pose proof (fill_record_base k entry slot) as Hb.
  split; [unfold ids_ok; rewrite Hb; exact Hids|].
  split; [rewrite Hb; exact Hret|].
  split; [rewrite Hb; apply current_comm_length|].
  clear Hb.
  unfold trailer_inv. rewrite fill_record_base. cbn [args_size args_count].
  unfold fill_record, bpf_probe_read_kernel. cbn zeta.
  destruct (Z.ltb_spec 0 (args_size (base entry))) as [Hpos|Hzero];
    cbn [andb].
  - destruct (Z.leb_spec (args_size (base entry)) FULL_MAX_ARGS_ARR); [|lia].
    cbn [set_args set_comm set_args_size set_args_count set_retval set_uid set_ppid
         set_pid args base].
    assert (Hdata : length (take (Z.to_nat (args_size (base entry))) (args entry))
                    = Z.to_nat (args_size (base entry)))
      by (rewrite length_take; lia).
    split_and!; [lia|lia| |].
    + rewrite length_write_at; [done|]. rewrite Hdata. simpl. lia.
    + exists strs. split_and!; [done|done|].
      rewrite <- Hpre.
      pose proof (take_write_at_through (args slot) 0
                    (take (Z.to_nat (args_size (base entry))) (args entry))) as Ht.
      rewrite Hdata in Ht. simpl in Ht. apply Ht. lia.
  - cbn [set_args set_comm set_args_size set_args_count set_retval set_uid set_ppid
         set_pid args base].
    split_and!; [lia|lia|done|].
    exists strs. split_and!; [done|done|].
    rewrite <- Hpre. replace (args_size (base entry)) with 0 by lia. done.
Qed.

Lemma exit_records_ok k ret reserved st :
  wf_state st -> slot_ok (SysExitExecve k ret reserved) ->
  Forall record_ok (events st) ->
  Forall record_ok (events (tracepoint__syscalls__sys_exit_execve k ret reserved st)).
Proof.
  intros [_ Hexecs] Hslot Hev. unfold tracepoint__syscalls__sys_exit_execve.
  destruct (execs st !! current_pid k) as [entry|] eqn:Hentry; [|done].
  destruct reserved as [slot|]; cbn [events]; [|done].
  apply Forall_app. split; [done|]. apply Forall_singleton.
  destruct (Hexecs _ _ Hentry) as (Hinv & _ & Hids).
  apply fill_record_ok; [exact Hinv|exact Hids|apply s32_range|done].
Qed.

(** Records submitted by invocations of other process ids carry other ids. *)
Lemma step_events_other max_args st c p :
  wf_state st -> call_pid c <> p ->
  exists others,
    events (step max_args st c) = events st ++ others /\
    Forall (fun o => pid (base o) <> p) others.
Proof.
  intros [_ Hexecs] Hne. destruct c as [k argv|k ret reserved]; cbn [step call_pid] in *.
  - exists []. rewrite enter_unfold. cbn [events]. by rewrite app_nil_r.
  - unfold tracepoint__syscalls__sys_exit_execve.
    destruct (execs st !! current_pid k) as [entry|] eqn:Hentry;
      [|exists []; by rewrite app_nil_r].
    destruct reserved as [slot|]; cbn [events]; [|exists []; by rewrite app_nil_r].
    eexists. split; [reflexivity|]. apply Forall_singleton.
    rewrite fill_record_base. cbn [pid set_retval base].
    destruct (Hexecs _ _ Hentry) as (_ & -> & _). done.
Qed.

Lemma run_events_other max_args cs : forall st p,
  wf_state st -> Forall (fun c => call_pid c <> p) cs ->
  exists others,
    events (run max_args st cs) = events st ++ others /\
    Forall (fun o => pid (base o) <> p) others.
Proof.
  unfold run. induction cs as [|c cs IH]; intros st p Hwf Hcs; simpl.
  - exists []. by rewrite app_nil_r.
  - inversion Hcs; subst.
    destruct (step_events_other max_args st c p) as (l1 & Hl1 & Hp1); [done|done|].
    destruct (IH (step max_args st c) p) as (l2 & Hl2 & Hp2);
      [by apply step_wf|done|].
    exists (l1 ++ l2). rewrite Hl2, Hl1, app_assoc. split; [done|].
    by apply Forall_app.
Qed.

Lemma run_records_ok max_args cs st :
  wf_state st -> Forall slot_ok cs -> Forall record_ok (events st) ->
  Forall record_ok (events (run max_args st cs)).
Proof.
  unfold run. revert st. induction cs as [|c cs IH]; intros st Hwf Hslots Hev; simpl;
    [done|].
  inversion Hslots; subst. apply IH; [by apply step_wf|done|].
  destruct c as [k argv|k ret reserved]; cbn [step].
  - by rewrite enter_unfold.
  - by apply exit_records_ok.
Qed.

(** ** The begin/end pair *)

(** C4. An end-probe invocation for a process id that has no entry in the
    correlation table emits nothing and changes nothing: the state it returns
    (scratch slots, correlation table, ring buffer) is the state it was given. *)
Theorem end_without_begin_is_noop k ret reserved st :
  execs st !! current_pid k = None ->
  tracepoint__syscalls__sys_exit_execve k ret reserved st = st.
Proof.
  intros Hmiss. unfold tracepoint__syscalls__sys_exit_execve. by rewrite Hmiss.
Qed.

Lemma end_without_begin_is_noop_witness :
  execs initial_state !! current_pid ls_end = None /\
  tracepoint__syscalls__sys_exit_execve ls_end 0 (Some event_zero) initial_state
  = initial_state.
Proof.
  split; [reflexivity|].
  apply (end_without_begin_is_noop ls_end 0 (Some event_zero) initial_state).
  reflexivity.
Defined.

(** C5. When the end probe finds the entry of its process id but the
    ring-buffer reservation fails, the handler still returns, no record is
    submitted, and the entry is removed from the correlation table (the
    other entries and the scratch slots are untouched). *)
Theorem end_reserve_failure_drops_entry k ret entry st :
  execs st !! current_pid k = Some entry ->
  let st' := tracepoint__syscalls__sys_exit_execve k ret None st in
  events st' = events st /\
  execs st' !! current_pid k = None /\
  execs st' = delete (current_pid k) (execs st) /\
  heap st' = heap st.
Proof.
  intros Hhit. unfold tracepoint__syscalls__sys_exit_execve. rewrite Hhit.
  cbn [events execs heap]. rewrite delete_insert_eq.
  split_and!; [done|apply lookup_delete_eq|done|done].
Qed.

(** C1. A begin probe for process id [p] whose table insert succeeds, any
    invocations for other process ids, then an end probe for [p] whose
    reservation succeeds. From the begin probe on, exactly one record with
    process id [p] is submitted, by the end probe: its pid, ppid and uid are
    the values read by the begin probe, its retval is the return code given to
    the end probe, and its comm is the task name read by the end probe. The
    entry of [p] is gone afterwards. *)
Theorem begin_end_emits_one max_args k1 argv cs k2 ret slot st0 :
  let p := current_pid k1 in
  let st1 := tracepoint__syscalls__sys_enter_execve max_args k1 argv st0 in
  let st2 := run max_args st1 cs in
  let st3 := tracepoint__syscalls__sys_exit_execve k2 ret (Some slot) st2 in
  wf_state st0 ->
  current_pid k2 = p ->
  has_room st0 p ->
  Forall (fun c => call_pid c <> p) cs ->
  - 2 ^ 31 <= ret < 2 ^ 31 ->
  exists others ev,
    events st3 = events st0 ++ others ++ [ev] /\
    Forall (fun o => pid (base o) <> p) others /\
    pid (base ev) = p /\
    ppid (base ev) = s32 (k_real_parent_tgid k1) /\
    uid (base ev) = u32 (k_uid_gid k1) /\
    retval (base ev) = ret /\
    comm (base ev) = bpf_get_current_comm k2 TASK_COMM_LEN /\
    execs st3 !! p = None.
Proof.
  intros p st1 st2 st3 Hwf Hpid Hroom Hothers Hret.
  assert (Hentry : execs st2 !! p = Some (assembled max_args k1 argv st0)).
  { unfold st2. rewrite run_execs_other by done.
    unfold st1. rewrite enter_unfold. cbn [execs].
    by apply update_elem_lookup_ok. }
  destruct (run_events_other max_args cs st1 p) as (others & Hev & Hp);
    [by apply enter_wf|done|].
  unfold st1 in Hev. rewrite enter_events in Hev. fold st1 st2 in Hev.
  unfold st3, tracepoint__syscalls__sys_exit_execve. rewrite Hpid, Hentry.
  cbn [events execs].
  exists others. eexists. split; [by rewrite Hev, app_assoc|].
  rewrite fill_record_base. cbn [pid ppid uid retval comm base set_retval].
  destruct (assembled_identity max_args k1 argv st0) as (-> & -> & ->).
  rewrite (s32_small ret) by done.
  split_and!; try done. apply lookup_delete_eq.
Qed.

Lemma begin_end_emits_one_witness :
  exists others ev,
    events ls_run = [] ++ others ++ [ev] /\
    Forall (fun o => pid (base o) <> 100) others /\
    pid (base ev) = 100 /\
    ppid (base ev) = 1 /\
    uid (base ev) = 0 /\
    retval (base ev) = 0 /\
    comm (base ev) = bpf_get_current_comm ls_end TASK_COMM_LEN /\
    execs ls_run !! 100 = None.
Proof.
  apply (begin_end_emits_one DEFAULT_MAXARGS ls_begin 4096 [] ls_end 0 event_zero
           initial_state).
  - split; apply map_Forall_empty.
  - reflexivity.
  - right. vm_compute. reflexivity.
  - constructor.
  - lia.
Defined.

Lemma end_reserve_failure_drops_entry_witness :
  let st := tracepoint__syscalls__sys_enter_execve DEFAULT_MAXARGS ls_begin 4096
              initial_state in
  let st' := tracepoint__syscalls__sys_exit_execve ls_end 0 None st in
  events st' = events st /\
  execs st' !! current_pid ls_end = None /\
  execs st' = delete (current_pid ls_end) (execs st) /\
  heap st' = heap st.
Proof.
  apply (end_reserve_failure_drops_entry ls_end 0
           (assembled DEFAULT_MAXARGS ls_begin 4096 initial_state)).
  vm_compute. reflexivity.
Defined.

(** The scenario of the specification: the record submitted for [ls -l]. *)
Example ls_record :
  exists ev,
    events ls_run = [ev] /\
    pid (base ev) = 100 /\ ppid (base ev) = 1 /\ uid (base ev) = 0 /\
    retval (base ev) = 0 /\ args_count (base ev) = 2 /\
    take 3 (comm (base ev)) = bytes_of "ls" ++ [NUL] /\
    take (Z.to_nat (args_size (base ev))) (args ev) =
      bytes_of "/bin/ls" ++ [NUL] ++ bytes_of "-l" ++ [NUL].
Proof. eexists. vm_compute. split_and!; reflexivity. Qed.

(** C6. A begin probe for [p] leaves an entry pending; a second begin probe
    for [p] (other process ids may run in between) replaces that entry by its
    own capture, and the end probe for [p] that follows submits a record equal
    to the one built from the capture the second begin probe makes on a clean
    scratch slot: nothing in it depends on the first begin probe. It is the
    only record with process id [p] submitted since the first begin probe. *)
Theorem second_begin_wins max_args k1 argv1 cs1 k2 argv2 cs2 k3 ret slot st0 :
  let p := current_pid k1 in
  let st1 := run max_args
               (tracepoint__syscalls__sys_enter_execve max_args k1 argv1 st0) cs1 in
  let st2 := tracepoint__syscalls__sys_enter_execve max_args k2 argv2 st1 in
  let st3 := run max_args st2 cs2 in
  let st4 := tracepoint__syscalls__sys_exit_execve k3 ret (Some slot) st3 in
  let second := fst (scan_loop k2 argv2 max_args 0 (init_event k2 event_zero)) in
  wf_state st0 ->
  current_pid k2 = p -> current_pid k3 = p ->
  has_room st0 p ->
  Forall (fun c => call_pid c <> p) cs1 ->
  Forall (fun c => call_pid c <> p) cs2 ->
  (exists entry, execs st2 !! p = Some entry /\ same_capture entry second) /\
  (exists others,
     events st4 =
       events st0 ++ others ++ [fill_record k3 (set_retval (s32 ret) second) slot] /\
     Forall (fun o => pid (base o) <> p) others) /\
  execs st4 !! p = None.
Proof.
  intros p st1 st2 st3 st4 second Hwf Hpid2 Hpid3 Hroom Hcs1 Hcs2.
  assert (Hwf1 : wf_state st1) by (by apply run_wf, enter_wf).
  assert (Hpending : is_Some (execs st1 !! p)).
  { unfold st1. rewrite run_execs_other by done.
    rewrite enter_unfold. cbn [execs].
    rewrite update_elem_lookup_ok by done. eauto. }
  assert (Hentry2 : execs st2 !! p = Some (assembled max_args k2 argv2 st1)).
  { unfold st2. rewrite enter_unfold. cbn [execs]. rewrite Hpid2.
    apply update_elem_lookup_ok. by left. }
  assert (Hsame : same_capture (assembled max_args k2 argv2 st1) second).
  { unfold assembled, second. apply scan_loop_same.
    - apply init_event_trailer_inv, scratch_length, Hwf1.
    - apply init_event_trailer_inv, event_zero_length.
    - unfold same_capture, init_event.
      cbn [set_pid set_uid set_retval set_args_count set_args_size set_ppid
           base args pid ppid uid retval args_count args_size].
      split_and!; done. }
  assert (Hev : exists others, events st3 = events st0 ++ others /\
                               Forall (fun o => pid (base o) <> p) others).
  { destruct (run_events_other max_args cs1
                (tracepoint__syscalls__sys_enter_execve max_args k1 argv1 st0) p)
      as (l1 & Hl1 & Hp1); [by apply enter_wf|done|].
    rewrite enter_events in Hl1. fold st1 in Hl1.
    destruct (run_events_other max_args cs2 st2 p) as (l2 & Hl2 & Hp2);
      [by apply enter_wf|done|].
    unfold st2 in Hl2. rewrite enter_events in Hl2. fold st2 st3 in Hl2.
    exists (l1 ++ l2). rewrite Hl2, Hl1, app_assoc. split; [done|].
    by apply Forall_app. }
  split_and!.
  - eauto.
  - destruct Hev as (others & Hev & Hp). exists others. split; [|done].
    unfold st4, tracepoint__syscalls__sys_exit_execve. rewrite Hpid3.
    unfold st3 at 1. rewrite run_execs_other by done. rewrite Hentry2.
    cbn [events]. rewrite Hev, <- app_assoc. do 3 f_equal. apply fill_record_same.
    destruct Hsame as (? & ? & ? & ? & ? & ? & ?).
    unfold same_capture.
    cbn [set_retval base args pid ppid uid retval args_count args_size].
    split_and!; done.
  - unfold st4, tracepoint__syscalls__sys_exit_execve. rewrite Hpid3.
    unfold st3 at 1. rewrite run_execs_other by done. rewrite Hentry2.
    cbn [execs]. apply lookup_delete_eq.
Qed.

Lemma second_begin_wins_witness :
  let p := current_pid long_begin in
  let st1 := run DEFAULT_MAXARGS
               (tracepoint__syscalls__sys_enter_execve DEFAULT_MAXARGS long_begin 4096
                  initial_state) [] in
  let st2 := tracepoint__syscalls__sys_enter_execve DEFAULT_MAXARGS ls_begin 4096 st1 in
  let st3 := run DEFAULT_MAXARGS st2 [] in
  let st4 := tracepoint__syscalls__sys_exit_execve ls_end 0 (Some event_zero) st3 in
  let second :=
    fst (scan_loop ls_begin 4096 DEFAULT_MAXARGS 0 (init_event ls_begin event_zero)) in
  (exists entry, execs st2 !! p = Some entry /\ same_capture entry second) /\
  (exists others,
     events st4 =
       [] ++ others ++ [fill_record ls_end (set_retval (s32 0) second) event_zero] /\
     Forall (fun o => pid (base o) <> p) others) /\
  execs st4 !! p = None.
Proof.
  apply (second_begin_wins DEFAULT_MAXARGS long_begin 4096 [] ls_begin 4096 []
           ls_end 0 event_zero initial_state).
  - split; apply map_Forall_empty.
  - reflexivity.
  - reflexivity.
  - right. vm_compute. reflexivity.
  - constructor.
  - constructor.
Defined.

(** ** The record handed to the consumer *)

Lemma tracer_records_ok max_args cs :
  Forall slot_ok cs ->
  Forall record_ok (events (run max_args initial_state cs)).
Proof.
  intros Hslots. apply run_records_ok; [apply initial_state_wf|done|constructor].
Qed.

End ExecsnoopSpec.

(** * Properties of the lifecycle emitters *)

Module ProcessCollectorSpec.
Import ProcessCollector.

Lemma u64_small x : 0 <= x < 2 ^ 64 -> u64 x = x.
Proof. intros H. unfold u64. apply Z.mod_small; lia. Qed.

Lemma populate_event_common_pid event task ktime :
  pid (snd (populate_event_common event task ktime)) = u32 (t_pid task).
Proof.
  unfold populate_event_common.
  destruct (t_real_parent task), (t_real_cred task) as [[? ?]|]; reflexivity.
Qed.

Lemma populate_event_common_ret event task ktime :
  fst (populate_event_common event task ktime) = 0.
Proof. reflexivity. Qed.

(** What each of the three handlers does with a reserved record. *)
Lemma handler_unfold (kind code : Z) task ktime event st :
  let ev := set_kind kind code (snd (populate_event_common event task ktime)) in
  (let '(r, event) := populate_event_common event task ktime in
   if r <? 0 then
     {| process_stats := process_stats st; process_events := process_events st;
        discarded := S (discarded st) |}
   else
     let event := set_kind kind code event in
     {| process_stats := update_process_stats (pid event) (process_stats st);
        process_events := process_events st ++ [event];
        discarded := discarded st |}) =
  {| process_stats := update_process_stats (u32 (t_pid task)) (process_stats st);
     process_events := process_events st ++ [ev];
     discarded := discarded st |}.
Proof.
  intros ev. unfold ev.
  pose proof (populate_event_common_pid event task ktime) as Hpid.
  pose proof (populate_event_common_ret event task ktime) as Hret.
  destruct (populate_event_common event task ktime) as [r e]. simpl in *. subst r.
  simpl. by rewrite Hpid.
Qed.

Lemma update_process_stats_spec p stats :
  update_process_stats p stats =
  match stats !! p with
  | Some m => <[p := u64 (m + 1)]> stats
  | None =>
      if Z.of_nat (size stats) <? process_stats_max_entries
      then <[p := 1]> stats else stats
  end.
Proof.
  unfold update_process_stats, bpf_map_update_elem.
  destruct (stats !! p); [done|]. by destruct (_ <? _).
Qed.

Lemma update_process_stats_lookup p stats q n :
  stats !! q = Some n ->
  exists n', update_process_stats p stats !! q = Some n' /\
             (n' = n \/ n' = u64 (n + 1)).
Proof.
  intros Hq. rewrite update_process_stats_spec.
  destruct (decide (p = q)) as [->|Hne].
  - rewrite Hq. rewrite lookup_insert_eq. eauto.
  - destruct (stats !! p).
    + rewrite lookup_insert_ne by done. eauto.
    + destruct (_ <? _); [rewrite lookup_insert_ne by done|]; eauto.
Qed.

Lemma step_stats_lookup st c q n :
  process_stats st !! q = Some n ->
  exists n', process_stats (step st c) !! q = Some n' /\
             (n' = n \/ n' = u64 (n + 1)).
Proof.
  intros Hq.
  destruct c as [task ktime [event|]|task ktime [event|]|task ktime [event|]|code task];
    cbn [step]; eauto.
  - unfold trace_process_fork. rewrite handler_unfold. cbn [process_stats].
    by apply update_process_stats_lookup.
  - unfold trace_process_exec. rewrite handler_unfold. cbn [process_stats].
    by apply update_process_stats_lookup.
  - unfold trace_process_exit. rewrite handler_unfold. cbn [process_stats].
    by apply update_process_stats_lookup.
  - unfold kprobe_do_fork. destruct (kernel_version_ge _ _ _ _); [|eauto].
    cbn [process_stats]. by apply update_process_stats_lookup.
Qed.

Lemma run_stats_lookup cs : forall st q n,
  process_stats st !! q = Some n -> 0 <= n ->
  n + Z.of_nat (length cs) < 2 ^ 64 ->
  exists n', process_stats (run st cs) !! q = Some n' /\
             n <= n' <= n + Z.of_nat (length cs).
Proof.
  unfold run. induction cs as [|c cs IH]; intros st q n Hq Hn Hlt; simpl.
  - exists n. split; [done|lia].
  - destruct (step_stats_lookup st c q n Hq) as (n1 & Hq1 & Hn1).
    cbn [length] in Hlt.
    assert (n <= n1 <= n + 1) as Hbound.
    { destruct Hn1 as [->| ->]; [lia|]. rewrite u64_small by lia. lia. }
    destruct (IH (step st c) q n1 Hq1) as (n' & Hq' & Hn'); [lia|lia|].
    exists n'. split; [done|lia].
Qed.

(** C9, as the code has it. An invocation that submits a record for process
    id [p] adds one, modulo 2^64, to the counter of [p] when [p] has one;
    when it has none, the counter is created with value 1 if the table holds
    fewer than 1024 entries, and the table is left as it is otherwise. No
    invocation removes a counter, and over a sequence of invocations too short
    to wrap it around a counter never decreases. *)
Theorem counter_table st c cs q :
  match emits_for c with
  | Some p =>
      (exists ev, process_events (step st c) = process_events st ++ [ev] /\
                  pid ev = p) /\
      process_stats (step st c) =
        match process_stats st !! p with
        | Some m => <[p := u64 (m + 1)]> (process_stats st)
        | None =>
            if Z.of_nat (size (process_stats st)) <? process_stats_max_entries
            then <[p := 1]> (process_stats st)
            else process_stats st
        end
  | None => True
  end /\
  (forall n,
     process_stats st !! q = Some n -> 0 <= n ->
     n + Z.of_nat (length cs) < 2 ^ 64 ->
     exists n', process_stats (run st cs) !! q = Some n' /\
                n <= n' <= n + Z.of_nat (length cs)).
Proof.
  split; [|intros n Hq Hn Hlt; by apply run_stats_lookup].
  destruct c as [task ktime [event|]|task ktime [event|]|task ktime [event|]|code task];
    cbn [emits_for step]; try done.
  - unfold trace_process_fork. rewrite handler_unfold.
    cbn [process_stats process_events]. split.
    + eexists. split; [reflexivity|]. apply populate_event_common_pid.
    + apply update_process_stats_spec.
  - unfold trace_process_exec. rewrite handler_unfold.
    cbn [process_stats process_events]. split.
    + eexists. split; [reflexivity|]. apply populate_event_common_pid.
    + apply update_process_stats_spec.
  - unfold trace_process_exit. rewrite handler_unfold.
    cbn [process_stats process_events]. split.
    + eexists. split; [reflexivity|]. apply populate_event_common_pid.
    + apply update_process_stats_spec.
Qed.

Lemma counter_table_witness :
  let fork := Fork task_5000 0 (Some process_event_zero) in
  let exit := Exit task_5000 1 (Some process_event_zero) in
  let st1 := step initial_state fork in
  process_stats st1 = <[5000 := 1]> ∅ /\
  process_stats (step st1 exit) = <[5000 := u64 (1 + 1)]> (process_stats st1) /\
  process_stats (step full_state fork) = process_stats full_state /\
  exists n', process_stats (run st1 [fork; exit]) !! 5000 = Some n' /\
             1 <= n' <= 1 + Z.of_nat (length [fork; exit]).
Proof.
  intros fork exit st1.
  pose proof (counter_table initial_state fork [] 5000) as [[_ Hnew] _].
  pose proof (counter_table st1 exit [fork; exit] 5000) as [[_ Hinc] Hrun].
  pose proof (counter_table full_state fork [] 5000) as [[_ Hfull] _].
  split_and!.
  - exact Hnew.
  - exact Hinc.
  - exact Hfull.
  - apply (Hrun 1); [vm_compute; reflexivity|lia|simpl; lia].
Defined.

(** C9 as stated fails when the table is full: the fork of process 5000 is
    reported, and no counter is created for it. *)
Lemma full_table_loses_first_observation :
  let st' := trace_process_fork task_5000 0 (Some process_event_zero) full_state in
  (exists ev, process_events st' = [ev] /\ pid ev = 5000) /\
  process_stats full_state !! 5000 = None /\
  process_stats st' !! 5000 <> Some 1.
Proof.
  split_and!.
  - eexists. vm_compute. split; reflexivity.
  - vm_compute. reflexivity.
  - vm_compute. discriminate.
Qed.

(** C10. [populate_event_common] returns 0 whatever it is given, so no handler
    takes its discard branch: no invocation changes the number of discarded
    records, and each of the three tracepoint handlers, once its reservation
    has succeeded, submits the record. *)
Theorem reserved_record_is_submitted event task ktime st c :
  fst (populate_event_common event task ktime) = 0 /\
  discarded (step st c) = discarded st /\
  (exists ev, process_events (trace_process_fork task ktime (Some event) st)
              = process_events st ++ [ev] /\ event_type ev = 0) /\
  (exists ev, process_events (trace_process_exec task ktime (Some event) st)
              = process_events st ++ [ev] /\ event_type ev = 1) /\
  (exists ev, process_events (trace_process_exit task ktime (Some event) st)
              = process_events st ++ [ev] /\ event_type ev = 2).
Proof.
  split_and!.
  - reflexivity.
  - destruct c as [t kt [e|]|t kt [e|]|t kt [e|]|code t]; cbn [step];
      try reflexivity.
    unfold kprobe_do_fork. by destruct (kernel_version_ge _ _ _ _).
  - unfold trace_process_fork. rewrite handler_unfold. eauto.
  - unfold trace_process_exec. rewrite handler_unfold. eauto.
  - unfold trace_process_exit. rewrite handler_unfold. eauto.
Qed.

(** ** Submitted records *)

Lemma u32_bounds x : 0 <= u32 x < 2 ^ 32.
Proof. unfold u32. apply Z.mod_pos_bound. lia. Qed.

Lemma u64_bounds x : 0 <= u64 x < 2 ^ 64.
Proof. unfold u64. apply Z.mod_pos_bound. lia. Qed.

Lemma length_read_kernel_str dst size src :
  size <= Z.of_nat (length dst) ->
  length (bpf_probe_read_kernel_str dst size src) = length dst.
Proof.
  intros Hfit. unfold bpf_probe_read_kernel_str.
  destruct (Z.leb_spec size 0); [done|].
  unfold write_at.
  repeat first [rewrite length_app | rewrite length_take | rewrite length_drop].
  cbn [length Z.to_nat]. lia.
Qed.

Lemma populate_event_common_shape event task ktime :
  length (comm event) = 16%nat ->
  let ev := snd (populate_event_common event task ktime) in
  pid ev = u32 (t_pid task) /\ length (comm ev) = 16%nat /\ timestamp ev = u64 ktime.
Proof.
  intros Hlen. unfold populate_event_common.
  assert (Hc : length (BPF_CORE_READ_STR_INTO (comm event) (t_comm task)) = 16%nat).
  { unfold BPF_CORE_READ_STR_INTO. cbn zeta. rewrite length_read_kernel_str; lia. }
  destruct (t_real_parent task), (t_real_cred task) as [[? ?]|];
    cbn [snd pid comm timestamp]; by split_and!.
Qed.

Lemma handler_record_ok kind code task ktime event :
  length (comm event) = 16%nat ->
  0 <= kind <= 2 -> 0 <= code < 2 ^ 32 ->
  record_ok (set_kind kind code (snd (populate_event_common event task ktime))).
Proof.
  intros Hlen Hkind Hcode.
  destruct (populate_event_common_shape event task ktime Hlen) as (Hp & Hc & Ht).
  unfold record_ok, set_kind. cbn [pid comm timestamp exit_code event_type].
  rewrite Hp, Ht. pose proof (u32_bounds (t_pid task)). pose proof (u64_bounds ktime).
  split_and!; (done || lia).
Qed.

Lemma step_records_ok st c :
  slot_ok c -> Forall record_ok (process_events st) ->
  Forall record_ok (process_events (step st c)).
Proof.
  intros Hslot Hev.
  destruct c as [task ktime [event|]|task ktime [event|]|task ktime [event|]|code task];
    cbn [step slot_ok] in *; try done.
  - unfold trace_process_fork. rewrite handler_unfold. cbn [process_events].
    apply Forall_app. split; [done|]. apply Forall_singleton.
    by apply handler_record_ok.
  - unfold trace_process_exec. rewrite handler_unfold. cbn [process_events].
    apply Forall_app. split; [done|]. apply Forall_singleton.
    by apply handler_record_ok.
  - unfold trace_process_exit. rewrite handler_unfold. cbn [process_events].
    apply Forall_app. split; [done|]. apply Forall_singleton.
    apply handler_record_ok; [done|lia|apply u32_bounds].
  - unfold kprobe_do_fork. by destruct (kernel_version_ge _ _ _ _).
Qed.

Lemma emitter_records_ok cs : forall st,
  Forall slot_ok cs -> Forall record_ok (process_events st) ->
  Forall record_ok (process_events (run st cs)).
Proof.
  unfold run. induction cs as [|c cs IH]; intros st Hslots Hev; simpl; [done|].
  inversion Hslots; subst. apply IH; [done|]. by apply step_records_ok.
Qed.

End ProcessCollectorSpec.

(** * The two ring buffers *)

Module RingBufferSpec.

(** C8, as the code has it. There are two ring buffers and two record types,
    neither with all the fields of the other. A record of the execve tracer is
    a whole [struct event]: the header (32-bit pid, ppid, uid and retval,
    args_count, args_size, 16-byte name) and then the trailer at its full
    declared size of [FULL_MAX_ARGS_ARR] bytes, of which the first [args_size]
    bytes, never more than the trailer holds, are [args_count] NUL-terminated
    strings laid end to end. A record of the lifecycle emitters is a
    [struct process_event]: pid, ppid, uid and gid, a 16-byte name, a 64-bit
    timestamp, a 32-bit exit code and a kind among 0, 1 and 2, with no
    argument fields and no trailer. *)
Theorem delivered_records_layout max_args cs pcs :
  Forall Execsnoop.slot_ok cs ->
  Forall ProcessCollector.slot_ok pcs ->
  Forall Execsnoop.record_ok
    (Execsnoop.events (Execsnoop.run max_args Execsnoop.initial_state cs)) /\
  Forall ProcessCollector.record_ok
    (ProcessCollector.process_events
       (ProcessCollector.run ProcessCollector.initial_state pcs)).
Proof.
  intros Hcs Hpcs. split.
  - by apply ExecsnoopSpec.tracer_records_ok.
  - apply ProcessCollectorSpec.emitter_records_ok; [done|constructor].
Qed.

Lemma delivered_records_layout_witness :
  Forall Execsnoop.record_ok (Execsnoop.events Execsnoop.ls_run) /\
  Forall ProcessCollector.record_ok
    (ProcessCollector.process_events
       (ProcessCollector.run ProcessCollector.initial_state
          [ProcessCollector.Fork ProcessCollector.task_5000 0
             (Some ProcessCollector.process_event_zero)])).
Proof.
  apply (delivered_records_layout Execsnoop.DEFAULT_MAXARGS
           [Execsnoop.SysEnterExecve Execsnoop.ls_begin 4096;
            Execsnoop.SysExitExecve Execsnoop.ls_end 0 (Some Execsnoop.event_zero)]
           [ProcessCollector.Fork ProcessCollector.task_5000 0
              (Some ProcessCollector.process_event_zero)]).
  - repeat constructor.
  - repeat constructor.
Defined.

(** C8 as stated fails: the record submitted for [ls -l] declares 11 bytes of
    arguments and is followed by a trailer of 7680 bytes. *)
Lemma delivered_record_trailer_is_full_size :
  exists ev,
    Execsnoop.events Execsnoop.ls_run = [ev] /\
    Execsnoop.args_size (Execsnoop.base ev) = 11 /\
    length (Execsnoop.args ev) = Z.to_nat Execsnoop.FULL_MAX_ARGS_ARR /\
    Z.of_nat (length (Execsnoop.args ev)) <> Execsnoop.args_size (Execsnoop.base ev).
Proof. eexists. vm_compute. split_and!; (reflexivity || discriminate). Qed.

End RingBufferSpec.

(** * Further properties of the execve tracer *)

Module ExecsnoopExtra.
Import Execsnoop ExecsnoopSpec.

(** ** What a read with a full window writes *)

Lemma read_user_str_full k buf off p :
  bpf_probe_read_user_str k buf off ARGSIZE p =
  match strncpy_from_user k p (Z.to_nat ARGSIZE) with
  | None => (- EFAULT, write_at buf off (replicate (Z.to_nat ARGSIZE) NUL))
  | Some bs =>
      (Z.of_nat (length (take (Z.to_nat (ARGSIZE - 1)) bs)) + 1,
       write_at buf off (take (Z.to_nat (ARGSIZE - 1)) bs ++ [NUL]))
  end.
Proof.
  unfold bpf_probe_read_user_str.
  destruct (Z.leb_spec ARGSIZE 0); [unfold_sizes; lia|].
  destruct (strncpy_from_user k p (Z.to_nat ARGSIZE)) as [bs|] eqn:Hcopy; [|done].
  apply strncpy_from_user_nul_free in Hcopy as [_ Hlen].
  destruct (Z.leb_spec ARGSIZE (Z.of_nat (length bs))).
  - f_equal. rewrite length_take. unfold_sizes. lia.
  - rewrite take_ge by (unfold_sizes; lia). done.
Qed.

Lemma scan_body_full k argv i e :
  0 <= args_size (base e) -> args_size (base e) + ARGSIZE <= FULL_MAX_ARGS_ARR ->
  0 <= args_count (base e) < 2 ^ 31 - 1 ->
  scan_body k argv i e =
  match k_user_ptr k (argv + 8 * i) with
  | None => Break e
  | Some p =>
      if p =? 0 then Break e
      else
        match strncpy_from_user k p (Z.to_nat ARGSIZE) with
        | None =>
            Break (set_args (write_at (args e) (args_size (base e))
                               (replicate (Z.to_nat ARGSIZE) NUL)) e)
        | Some bs =>
            let c := take (Z.to_nat (ARGSIZE - 1)) bs in
            Continue
              (set_args_size (args_size (base e) + (Z.of_nat (length c) + 1))
                 (set_args_count (args_count (base e) + 1)
                    (set_args (write_at (args e) (args_size (base e)) (c ++ [NUL])) e)))
        end
  end.
Proof.
  intros Hsz Hfit Hcnt. unfold scan_body, bpf_probe_read_user_ptr.
  destruct (k_user_ptr k (argv + 8 * i)) as [p|]; cbn [snd]; [|done].
  destruct (Z.eqb_spec p 0); [done|].
  rewrite remaining_space_eq by (unfold_sizes; lia).
  destruct (Z.leb_spec (FULL_MAX_ARGS_ARR - args_size (base e)) 0);
    [unfold_sizes; lia|].
  assert (Hrs : read_size e = ARGSIZE).
  { unfold read_size. rewrite remaining_space_eq by (unfold_sizes; lia).
    destruct (Z.ltb_spec (FULL_MAX_ARGS_ARR - args_size (base e)) ARGSIZE);
      [lia|done]. }
  rewrite Hrs, read_user_str_full.
  destruct (strncpy_from_user k p (Z.to_nat ARGSIZE)) as [bs|] eqn:Hcopy.
  - cbn zeta. set (c := take (Z.to_nat (ARGSIZE - 1)) bs).
    assert (Hc : (length c <= 127)%nat).
    { unfold c. rewrite length_take. unfold_sizes. lia. }
    cbn [set_args base args_size args_count].
    rewrite s32_small by lia.
    destruct (Z.ltb_spec 0 (Z.of_nat (length c) + 1)); [|lia].
    rewrite u32_small by (unfold_sizes; lia).
    destruct (Z.ltb_spec FULL_MAX_ARGS_ARR
                (args_size (base e) + (Z.of_nat (length c) + 1)));
      [unfold_sizes; lia|].
    rewrite s32_small by lia. done.
  - unfold_sizes. rewrite s32_small by lia. done.
Qed.

Lemma encode_args_cons c cs :
  encode_args (c :: cs) = c ++ [NUL] ++ encode_args cs.
Proof. unfold encode_args. simpl. by rewrite <- app_assoc. Qed.

Lemma captured_args_short k argv n i :
  Forall (fun c => (length c <= 127)%nat) (captured_args k argv n i).
Proof.
  revert i. induction n as [|n IH]; intros i; cbn [captured_args]; [constructor|].
  destruct (k_user_ptr k (argv + 8 * i)) as [p|]; [|constructor].
  destruct (p =? 0); [constructor|].
  destruct (strncpy_from_user k p (Z.to_nat ARGSIZE)); [|constructor].
  constructor; [|apply IH]. rewrite length_take. unfold_sizes. lia.
Qed.

Lemma captured_args_length k argv n i : (length (captured_args k argv n i) <= n)%nat.
Proof.
  revert i. induction n as [|n IH]; intros i; cbn [captured_args length]; [lia|].
  destruct (k_user_ptr k (argv + 8 * i)) as [p|]; [|cbn [length]; lia].
  destruct (p =? 0); [cbn [length]; lia|].
  destruct (strncpy_from_user k p (Z.to_nat ARGSIZE)); [|cbn [length]; lia].
  cbn [length]. specialize (IH (i + 1)). lia.
Qed.

Lemma encode_args_bounds cs :
  Forall (fun c => (length c <= 127)%nat) cs ->
  (length cs <= length (encode_args cs) <= 128 * length cs)%nat.
Proof.
  induction 1 as [|c cs Hc _ IH]; [simpl; lia|].
  rewrite encode_args_cons, !length_app. simpl. lia.
Qed.

(** The loop, from any index, captures [captured_args]. *)
Lemma scan_loop_capture k argv max_args : forall n i e,
  0 <= i -> n = Z.to_nat (Z.min max_args DEFAULT_MAXARGS - i) ->
  0 <= args_size (base e) <= ARGSIZE * i ->
  0 <= args_count (base e) <= i ->
  length (args e) = Z.to_nat FULL_MAX_ARGS_ARR ->
  let e' := fst (scan_loop k argv max_args i e) in
  let cs := captured_args k argv n i in
  args_count (base e') = args_count (base e) + Z.of_nat (length cs) /\
  args_size (base e') = args_size (base e) + Z.of_nat (length (encode_args cs)) /\
  take (Z.to_nat (args_size (base e'))) (args e') =
    take (Z.to_nat (args_size (base e))) (args e) ++ encode_args cs.
Proof.
  induction n as [|n IH]; intros i e Hi Hn Hsz Hcnt Hlen; cbn zeta.
  - rewrite scan_loop_unfold, decide_False by (unfold_sizes; lia).
    cbn [fst captured_args length encode_args map concat].
    rewrite app_nil_r. split_and!; lia || done.
  - rewrite scan_loop_unfold, decide_True by (unfold_sizes; lia).
    rewrite scan_body_full by (unfold_sizes; lia).
    cbn [captured_args].
    destruct (k_user_ptr k (argv + 8 * i)) as [p|];
      [|cbn [fst length encode_args map concat]; rewrite app_nil_r;
        split_and!; lia || done].
    destruct (p =? 0);
      [cbn [fst length encode_args map concat]; rewrite app_nil_r;
       split_and!; lia || done|].
    destruct (strncpy_from_user k p (Z.to_nat ARGSIZE)) as [bs|].
    + cbn zeta. set (c := take (Z.to_nat (ARGSIZE - 1)) bs).
      assert (Hc : (length c <= 127)%nat).
      { unfold c. rewrite length_take. unfold_sizes. lia. }
      cbn [fst]. set (e1 := set_args_size _ _).
      assert (He1len : length (args e1) = Z.to_nat FULL_MAX_ARGS_ARR).
      { unfold e1. cbn [set_args_size set_args_count set_args args].
        rewrite length_write_at; [done|]. rewrite length_app. simpl.
        unfold_sizes. lia. }
      destruct (IH (i + 1) e1) as (Hc' & Hs' & Ht'); try done.
      * lia.
      * lia.
      * unfold e1. cbn [set_args_size set_args_count set_args base args_size].
        unfold_sizes. lia.
      * unfold e1. cbn [set_args_size set_args_count set_args base args_count]. lia.
      * rewrite Ht', Hc', Hs'. unfold e1.
        cbn [set_args_size set_args_count set_args base args args_size args_count].
        rewrite encode_args_cons. split_and!.
        -- cbn [length]. lia.
        -- rewrite !length_app. simpl. lia.
        -- replace (Z.to_nat (args_size (base e) + (Z.of_nat (length c) + 1)))
             with (Z.to_nat (args_size (base e)) + length (c ++ [NUL]))%nat
             by (rewrite length_app; simpl; lia).
           rewrite take_write_at_through by (unfold_sizes; lia).
           by rewrite <- !app_assoc.
    + cbn [fst set_args base args length encode_args map concat].
      rewrite app_nil_r, take_write_at_before by (unfold_sizes; lia).
      split_and!; lia || done.
Qed.

Lemma scan_from_init k argv max_args scratch :
  length (args scratch) = Z.to_nat FULL_MAX_ARGS_ARR ->
  let e := fst (scan_loop k argv max_args 0 (init_event k scratch)) in
  let cs := captured_args k argv (Z.to_nat (Z.min max_args DEFAULT_MAXARGS)) 0 in
  args_count (base e) = Z.of_nat (length cs) /\
  args_size (base e) = Z.of_nat (length (encode_args cs)) /\
  take (Z.to_nat (args_size (base e))) (args e) = encode_args cs.
Proof.
  intros Hlen e cs.
  destruct (scan_loop_capture k argv max_args
              (Z.to_nat (Z.min max_args DEFAULT_MAXARGS)) 0 (init_event k scratch))
    as (Hc & Hs & Ht); try done.
  by rewrite Z.sub_0_r.
Qed.

Lemma captured_args_prefix k argv strs : forall ptrs n i,
  argv_prefix_at k (argv + 8 * i) ptrs strs ->
  Forall (fun s => Z.of_nat (length s) < ARGSIZE) strs ->
  captured_args k argv (length strs + n) i =
  strs ++ captured_args k argv n (i + Z.of_nat (length strs)).
Proof.
  induction strs as [|s strs IH]; intros [|p ptrs] n i Hargv Hshort;
    cbn [argv_prefix_at] in Hargv; try done.
  - cbn [length app Nat.add]. by rewrite Z.add_0_r.
  - destruct Hargv as (Hp & Hptr & Hs & Hrest).
    inversion Hshort as [|? ? Hslen Hshort']; subst.
    cbn [length Nat.add captured_args]. rewrite Hptr.
    destruct (Z.eqb_spec p 0); [done|].
    rewrite (strncpy_from_user_str_at k p s) by (done || unfold_sizes; lia).
    rewrite take_ge by (unfold_sizes; lia).
    rewrite (IH ptrs n (i + 1)); [|by replace (argv + 8 * (i + 1))
                                       with (argv + 8 * i + 8) by lia|done].
    cbn [app]. do 3 f_equal. lia.
Qed.

(** The scan of a vector whose first entries are well formed, in terms of
    what the entries after them give. *)
Lemma scan_after_prefix k argv max_args ptrs strs scratch tail :
  Z.of_nat (length strs) < Z.min max_args DEFAULT_MAXARGS ->
  argv_prefix_at k argv ptrs strs ->
  Forall (fun s => Z.of_nat (length s) < ARGSIZE) strs ->
  length (args scratch) = Z.to_nat FULL_MAX_ARGS_ARR ->
  (forall m, captured_args k argv (S m) (Z.of_nat (length strs)) = tail) ->
  let e := fst (scan_loop k argv max_args 0 (init_event k scratch)) in
  args_count (base e) = Z.of_nat (length (strs ++ tail)) /\
  args_size (base e) = Z.of_nat (length (encode_args (strs ++ tail))) /\
  take (Z.to_nat (args_size (base e))) (args e) = encode_args (strs ++ tail).
Proof.
  intros Hn Hargv Hshort Hlen Htail e.
  pose proof (scan_from_init k argv max_args scratch Hlen) as H. cbn zeta in H.
  fold e in H.
  replace (Z.to_nat (Z.min max_args DEFAULT_MAXARGS))
    with (length strs + S (Z.to_nat (Z.min max_args DEFAULT_MAXARGS) - length strs - 1))%nat
    in H by lia.
  rewrite (captured_args_prefix k argv strs ptrs) in H;
    [|by rewrite Z.mul_0_r, Z.add_0_r|done].
  rewrite Z.add_0_l, Htail in H. exact H.
Qed.

(** X1. Whatever the user memory holds, the scan of the begin probe captures
    the strings found by walking the pointer array from its first entry, for
    at most min(max_args, DEFAULT_MAXARGS) entries, up to the first NULL or
    unreadable pointer or the first unreadable string, each string cut to
    ARGSIZE - 1 bytes: args_count is their number and the first args_size
    bytes of the trailer are these strings, each followed by a NUL. *)
Theorem scan_captures_reference k argv max_args scratch :
  length (args scratch) = Z.to_nat FULL_MAX_ARGS_ARR ->
  let e := fst (scan_loop k argv max_args 0 (init_event k scratch)) in
  let cs := captured_args k argv (Z.to_nat (Z.min max_args DEFAULT_MAXARGS)) 0 in
  args_count (base e) = Z.of_nat (length cs) /\
  args_size (base e) = Z.of_nat (length (encode_args cs)) /\
  take (Z.to_nat (args_size (base e))) (args e) = encode_args cs.
Proof. apply scan_from_init. Qed.

Lemma scan_captures_reference_witness :
  let e := fst (scan_loop longarg_begin 4096 DEFAULT_MAXARGS 0
                  (init_event longarg_begin event_zero)) in
  let cs := captured_args longarg_begin 4096
              (Z.to_nat (Z.min DEFAULT_MAXARGS DEFAULT_MAXARGS)) 0 in
  args_count (base e) = Z.of_nat (length cs) /\
  args_size (base e) = Z.of_nat (length (encode_args cs)) /\
  take (Z.to_nat (args_size (base e))) (args e) = encode_args cs.
Proof.
  apply (scan_captures_reference longarg_begin 4096 DEFAULT_MAXARGS event_zero).
  vm_compute. reflexivity.
Defined.

(** X2. A pointer array that becomes unreadable is treated as if it ended
    there: when the first n entries lead to readable strings shorter than
    ARGSIZE, n is below the loop bound and the next entry cannot be read, the
    scan keeps exactly these n strings. *)
Theorem scan_stops_at_unreadable_pointer k argv max_args ptrs strs scratch :
  Z.of_nat (length strs) < Z.min max_args DEFAULT_MAXARGS ->
  argv_prefix_at k argv ptrs strs ->
  Forall (fun s => Z.of_nat (length s) < ARGSIZE) strs ->
  k_user_ptr k (argv + 8 * Z.of_nat (length strs)) = None ->
  length (args scratch) = Z.to_nat FULL_MAX_ARGS_ARR ->
  let e := fst (scan_loop k argv max_args 0 (init_event k scratch)) in
  args_count (base e) = Z.of_nat (length strs) /\
  args_size (base e) = Z.of_nat (length (encode_args strs)) /\
  take (Z.to_nat (args_size (base e))) (args e) = encode_args strs.
Proof.
  intros Hn Hargv Hshort Hfault Hlen.
  pose proof (scan_after_prefix k argv max_args ptrs strs scratch [] Hn Hargv
                Hshort Hlen) as H.
  rewrite app_nil_r in H. apply H.
  intros m. cbn [captured_args]. by rewrite Hfault.
Qed.

Lemma scan_stops_at_unreadable_pointer_witness :
  let strs := [bytes_of "/bin/ls"; bytes_of "-l"] in
  let e := fst (scan_loop unterminated_begin 4096 DEFAULT_MAXARGS 0
                  (init_event unterminated_begin event_zero)) in
  args_count (base e) = Z.of_nat (length strs) /\
  args_size (base e) = Z.of_nat (length (encode_args strs)) /\
  take (Z.to_nat (args_size (base e))) (args e) = encode_args strs.
Proof.
  apply (scan_stops_at_unreadable_pointer unterminated_begin 4096 DEFAULT_MAXARGS
           [8192; 8200] [bytes_of "/bin/ls"; bytes_of "-l"] event_zero).
  - vm_compute. reflexivity.
  - vm_compute. repeat split; discriminate.
  - repeat constructor.
  - vm_compute. reflexivity.
  - vm_compute. reflexivity.
Defined.



Lemma encode_args_app cs1 cs2 :
  encode_args (cs1 ++ cs2) = encode_args cs1 ++ encode_args cs2.
Proof. unfold encode_args. by rewrite map_app, concat_app. Qed.

(** A walk that captured every one of its first [a] entries goes on from
    entry [a] as a walk started there. *)
Lemma captured_args_split k argv a : forall b i,
  length (captured_args k argv a i) = a ->
  captured_args k argv (a + b) i =
  captured_args k argv a i ++ captured_args k argv b (i + Z.of_nat a).
Proof.
  induction a as [|a IH]; intros b i Hall.
  - cbn [Nat.add captured_args app]. by rewrite Z.add_0_r.
  - cbn [Nat.add captured_args] in *.
    destruct (k_user_ptr k (argv + 8 * i)) as [p|]; [|done].
    destruct (p =? 0); [done|].
    destruct (strncpy_from_user k p (Z.to_nat ARGSIZE)); [|done].
    cbn [length] in Hall. rewrite (IH b (i + 1)) by lia.
    cbn [app]. do 3 f_equal. lia.
Qed.

(** X4. An argument of ARGSIZE bytes or more is not dropped, wherever it
    stands in the vector: when the scan reaches entry n (every entry before it
    was captured, long or short) and the string there has no NUL among its
    first ARGSIZE bytes, it is captured cut to its first ARGSIZE - 1 bytes and
    a NUL, counted as one string, adds exactly ARGSIZE to args_size, and the
    scan goes on with the entries after it. *)
Theorem scan_truncates_long_argument k argv max_args n p bs scratch :
  Z.of_nat n < Z.min max_args DEFAULT_MAXARGS ->
  length (captured_args k argv n 0) = n ->
  k_user_ptr k (argv + 8 * Z.of_nat n) = Some p ->
  p <> 0 ->
  strncpy_from_user k p (Z.to_nat ARGSIZE) = Some bs ->
  length bs = Z.to_nat ARGSIZE ->
  length (args scratch) = Z.to_nat FULL_MAX_ARGS_ARR ->
  let e := fst (scan_loop k argv max_args 0 (init_event k scratch)) in
  let before := captured_args k argv n 0 in
  let cut := take (Z.to_nat (ARGSIZE - 1)) bs in
  let rest :=
    captured_args k argv (Z.to_nat (Z.min max_args DEFAULT_MAXARGS) - n - 1)
      (Z.of_nat n + 1) in
  length cut = Z.to_nat (ARGSIZE - 1) /\
  args_count (base e) = Z.of_nat n + 1 + Z.of_nat (length rest) /\
  args_size (base e) =
    Z.of_nat (length (encode_args before)) + ARGSIZE
    + Z.of_nat (length (encode_args rest)) /\
  take (Z.to_nat (args_size (base e))) (args e) =
    encode_args before ++ (cut ++ [NUL]) ++ encode_args rest.
Proof.
  intros Hn Hreach Hptr Hp Hcopy Hbs Hlen e before cut rest.
  assert (Hcut : length cut = Z.to_nat (ARGSIZE - 1)).
  { unfold cut. rewrite length_take. unfold_sizes. lia. }
  destruct (scan_from_init k argv max_args scratch Hlen) as (Hc & Hs & Ht).
  fold e in Hc, Hs, Ht.
  assert (Hcs : captured_args k argv (Z.to_nat (Z.min max_args DEFAULT_MAXARGS)) 0
                = before ++ cut :: rest).
  { replace (Z.to_nat (Z.min max_args DEFAULT_MAXARGS))
      with (n + S (Z.to_nat (Z.min max_args DEFAULT_MAXARGS) - n - 1))%nat by lia.
    rewrite captured_args_split by done. fold before. f_equal.
    rewrite Z.add_0_l. cbn [captured_args]. rewrite Hptr.
    destruct (Z.eqb_spec p 0); [done|]. by rewrite Hcopy. }
  rewrite Hcs in Hc, Hs, Ht.
  rewrite encode_args_app, encode_args_cons in Hs, Ht.
  rewrite !length_app in Hc, Hs. cbn [length] in Hc, Hs.
  fold before in Hreach.
  split_and!; [done|lia| |].
  - rewrite Hs, !length_app, Hcut. cbn [length]. unfold_sizes. lia.
  - rewrite Ht. by rewrite <- !app_assoc.
Qed.

Lemma scan_truncates_long_argument_witness :
  let e := fst (scan_loop middle_long_begin 4096 DEFAULT_MAXARGS 0
                  (init_event middle_long_begin event_zero)) in
  let before := captured_args middle_long_begin 4096 1 0 in
  let cut := take (Z.to_nat (ARGSIZE - 1)) (replicate 128 "a"%byte) in
  let rest :=
    captured_args middle_long_begin 4096
      (Z.to_nat (Z.min DEFAULT_MAXARGS DEFAULT_MAXARGS) - 1 - 1) (Z.of_nat 1 + 1) in
  length cut = Z.to_nat (ARGSIZE - 1) /\
  args_count (base e) = Z.of_nat 1 + 1 + Z.of_nat (length rest) /\
  args_size (base e) =
    Z.of_nat (length (encode_args before)) + ARGSIZE
    + Z.of_nat (length (encode_args rest)) /\
  take (Z.to_nat (args_size (base e))) (args e) =
    encode_args before ++ (cut ++ [NUL]) ++ encode_args rest.
Proof.
  apply (scan_truncates_long_argument middle_long_begin 4096 DEFAULT_MAXARGS 1
           16384 (replicate 128 "a"%byte) event_zero).
  - vm_compute. reflexivity.
  - vm_compute. reflexivity.
  - vm_compute. reflexivity.
  - discriminate.
  - vm_compute. reflexivity.
  - vm_compute. reflexivity.
  - vm_compute. reflexivity.
Defined.

(** The vector "-l", 200 times "a", "-l": three strings, 3 + 128 + 3 bytes. *)
Example middle_long_capture :
  let e := fst (scan_loop middle_long_begin 4096 DEFAULT_MAXARGS 0
                  (init_event middle_long_begin event_zero)) in
  args_count (base e) = 3 /\ args_size (base e) = 134.
Proof. vm_compute. by split. Qed.

(** X5. The byte count of a scan is tied to its string count: each captured
    string takes between 1 and ARGSIZE bytes, so args_count <= args_size <=
    ARGSIZE * args_count, and with at most DEFAULT_MAXARGS strings the scan
    never fills more than ARGSIZE * DEFAULT_MAXARGS bytes of the trailer, a
    third of its capacity. *)
Theorem scan_size_accounting k argv max_args scratch :
  length (args scratch) = Z.to_nat FULL_MAX_ARGS_ARR ->
  let e := fst (scan_loop k argv max_args 0 (init_event k scratch)) in
  args_count (base e) <= args_size (base e) /\
  args_size (base e) <= ARGSIZE * args_count (base e) /\
  args_count (base e) <= DEFAULT_MAXARGS /\
  3 * args_size (base e) <= FULL_MAX_ARGS_ARR.
Proof.
  intros Hlen e.
  destruct (scan_from_init k argv max_args scratch Hlen) as (Hc & Hs & _).
  fold e in Hc, Hs.
  set (cs := captured_args k argv (Z.to_nat (Z.min max_args DEFAULT_MAXARGS)) 0) in *.
  pose proof (encode_args_bounds cs (captured_args_short _ _ _ _)) as Hb.
  pose proof (captured_args_length k argv
                (Z.to_nat (Z.min max_args DEFAULT_MAXARGS)) 0) as Hl.
  fold cs in Hl. unfold_sizes. lia.
Qed.

Lemma scan_size_accounting_witness :
  let e := fst (scan_loop long_begin 4096 DEFAULT_MAXARGS 0
                  (init_event long_begin event_zero)) in
  args_count (base e) <= args_size (base e) /\
  args_size (base e) <= ARGSIZE * args_count (base e) /\
  args_count (base e) <= DEFAULT_MAXARGS /\
  3 * args_size (base e) <= FULL_MAX_ARGS_ARR.
Proof.
  apply (scan_size_accounting long_begin 4096 DEFAULT_MAXARGS event_zero).
  vm_compute. reflexivity.
Defined.

(** ** The two handlers on the maps *)

Lemma exit_miss k ret reserved st :
  execs st !! current_pid k = None ->
  tracepoint__syscalls__sys_exit_execve k ret reserved st = st.
Proof. intros H. unfold tracepoint__syscalls__sys_exit_execve. by rewrite H. Qed.

Lemma exit_hit k ret reserved st entry :
  execs st !! current_pid k = Some entry ->
  tracepoint__syscalls__sys_exit_execve k ret reserved st =
  {| heap := heap st;
     execs := delete (current_pid k) (execs st);
     events := events st ++
               match reserved with
               | Some slot => [fill_record k (set_retval (s32 ret) entry) slot]
               | None => []
               end |}.
Proof.
  intros H. unfold tracepoint__syscalls__sys_exit_execve. rewrite H.
  destruct reserved; cbn zeta; rewrite delete_insert_eq; [done|].
  by rewrite app_nil_r.
Qed.

Lemma enter_size max_args k argv st :
  (size (execs st) <= size (execs (tracepoint__syscalls__sys_enter_execve
                                     max_args k argv st))
   <= S (size (execs st)))%nat /\
  (Z.of_nat (size (execs st)) <= execs_max_entries ->
   Z.of_nat (size (execs (tracepoint__syscalls__sys_enter_execve max_args k argv st)))
   <= execs_max_entries).
Proof.
  rewrite enter_unfold. cbn [execs]. unfold bpf_map_update_elem.
  destruct (execs st !! current_pid k) eqn:Hk; cbn [snd].
  - rewrite map_size_insert_Some by eauto. lia.
  - destruct (Z.ltb_spec (Z.of_nat (size (execs st))) execs_max_entries); cbn [snd].
    + rewrite map_size_insert_None by done. lia.
    + lia.
Qed.

(** X6. When the correlation table is full, the begin probe of a process id
    that has no entry stores nothing and reports nothing, and the end probe
    that follows for this process id, whatever the ring buffer allows, leaves
    the state as it is: the execution is lost without trace. *)
Theorem begin_on_full_table_is_dropped max_args k argv cs k2 ret reserved st :
  let p := current_pid k in
  let st1 := tracepoint__syscalls__sys_enter_execve max_args k argv st in
  let st2 := run max_args st1 cs in
  execs st !! p = None ->
  execs_max_entries <= Z.of_nat (size (execs st)) ->
  current_pid k2 = p ->
  Forall (fun c => call_pid c <> p) cs ->
  execs st1 = execs st /\ events st1 = events st /\
  tracepoint__syscalls__sys_exit_execve k2 ret reserved st2 = st2.
Proof.
  intros p st1 st2 Hnone Hfull Hpid Hcs.
  assert (Hsame : execs st1 = execs st).
  { unfold st1. rewrite enter_unfold. cbn [execs]. unfold bpf_map_update_elem.
    fold p. rewrite Hnone.
    by destruct (Z.ltb_spec (Z.of_nat (size (execs st))) execs_max_entries); [lia|]. }
  split_and!; [done|apply enter_events|].
  apply exit_miss. rewrite Hpid. unfold st2. rewrite run_execs_other by done.
  by rewrite Hsame.
Qed.

Lemma begin_on_full_table_is_dropped_witness :
  let p := current_pid ls_begin in
  let st1 := tracepoint__syscalls__sys_enter_execve DEFAULT_MAXARGS ls_begin 4096
               full_table_state in
  let st2 := run DEFAULT_MAXARGS st1 [] in
  execs st1 = execs full_table_state /\ events st1 = events full_table_state /\
  tracepoint__syscalls__sys_exit_execve ls_end 0 (Some event_zero) st2 = st2.
Proof.
  apply (begin_on_full_table_is_dropped DEFAULT_MAXARGS ls_begin 4096 [] ls_end 0
           (Some event_zero) full_table_state).
  - vm_compute. reflexivity.
  - vm_compute. discriminate.
  - reflexivity.
  - constructor.
Defined.

Lemma step_size_bounded max_args st c :
  Z.of_nat (size (execs st)) <= execs_max_entries ->
  Z.of_nat (size (execs (step max_args st c))) <= execs_max_entries.
Proof.
  intros Hb. destruct c as [k argv|k ret reserved]; cbn [step].
  - by apply enter_size.
  - destruct (execs st !! current_pid k) as [entry|] eqn:Hk.
    + rewrite (exit_hit _ _ _ _ entry) by done. cbn [execs].
      rewrite map_size_delete_Some by eauto. lia.
    + by rewrite exit_miss.
Qed.

(** X7. The correlation table never holds more than its 10240 entries: a
    bound that holds before a sequence of invocations holds after it. *)
Theorem correlation_table_bounded max_args cs st :
  Z.of_nat (size (execs st)) <= execs_max_entries ->
  Z.of_nat (size (execs (run max_args st cs))) <= execs_max_entries.
Proof.
  unfold run. revert st. induction cs as [|c cs IH]; intros st Hb; simpl; [done|].
  by apply IH, step_size_bounded.
Qed.

Lemma correlation_table_bounded_witness :
  Z.of_nat (size (execs (run DEFAULT_MAXARGS full_table_state
                           [SysEnterExecve ls_begin 4096])))
  <= execs_max_entries.
Proof.
  apply (correlation_table_bounded DEFAULT_MAXARGS [SysEnterExecve ls_begin 4096]
           full_table_state).
  vm_compute. discriminate.
Defined.

(** X8. An end probe always leaves its process id without an entry, whether
    it found one or not and whether the reservation succeeded or not; a second
    end probe for the same process id therefore changes nothing, so one begin
    probe can give rise to at most one record. *)
Theorem end_consumes_entry k ret reserved k' ret' reserved' st :
  current_pid k' = current_pid k ->
  let st1 := tracepoint__syscalls__sys_exit_execve k ret reserved st in
  execs st1 !! current_pid k = None /\
  tracepoint__syscalls__sys_exit_execve k' ret' reserved' st1 = st1.
Proof.
  intros Hpid st1.
  assert (Hgone : execs st1 !! current_pid k = None).
  { unfold st1. destruct (execs st !! current_pid k) as [entry|] eqn:Hk.
    - rewrite (exit_hit _ _ _ _ entry) by done. cbn [execs]. apply lookup_delete_eq.
    - by rewrite exit_miss. }
  split; [done|]. apply exit_miss. by rewrite Hpid.
Qed.

Lemma end_consumes_entry_witness :
  let st1 := tracepoint__syscalls__sys_exit_execve ls_end 0 (Some event_zero)
               (tracepoint__syscalls__sys_enter_execve DEFAULT_MAXARGS ls_begin 4096
                  initial_state) in
  execs st1 !! current_pid ls_end = None /\
  tracepoint__syscalls__sys_exit_execve ls_end 0 (Some event_zero) st1 = st1.
Proof.
  apply (end_consumes_entry ls_end 0 (Some event_zero) ls_end 0 (Some event_zero)).
  reflexivity.
Defined.

Lemma step_records_and_entries max_args st c :
  (length (events (step max_args st c)) + size (execs (step max_args st c))
   <= length (events st) + size (execs st) + (if is_begin c then 1 else 0))%nat.
Proof.
  destruct c as [k argv|k ret reserved]; cbn [step is_begin].
  - pose proof (enter_size max_args k argv st) as [H _].
    rewrite enter_events. lia.
  - destruct (execs st !! current_pid k) as [entry|] eqn:Hk.
    + rewrite (exit_hit _ _ _ _ entry) by done. cbn [execs events].
      rewrite map_size_delete_Some by eauto.
      assert (size (execs st) <> 0)%nat.
      { intros H0. apply map_size_empty_inv in H0. rewrite H0 in Hk.
        by rewrite lookup_empty in Hk. }
      rewrite length_app. destruct reserved; cbn [length]; lia.
    + rewrite exit_miss by done. lia.
Qed.

Lemma run_records_and_entries max_args cs : forall st,
  (length (events (run max_args st cs)) + size (execs (run max_args st cs))
   <= length (events st) + size (execs st)
      + length (filter (fun c => is_begin c = true) cs))%nat.
Proof.
  unfold run. induction cs as [|c cs IH]; intros st; simpl; [lia|].
  specialize (IH (step max_args st c)).
  pose proof (step_records_and_entries max_args st c) as Hs.
  rewrite filter_cons. destruct (decide (is_begin c = true)) as [Hb|Hb].
  - rewrite Hb in Hs. cbn [length]. lia.
  - destruct (is_begin c); [done|]. lia.
Qed.

(** X9. No record without a begin probe: starting from empty maps, the number
    of records submitted plus the number of entries still pending never
    exceeds the number of begin probes that ran. *)
Theorem records_bounded_by_begins max_args cs :
  (length (events (run max_args initial_state cs))
   + size (execs (run max_args initial_state cs))
   <= length (filter (fun c => is_begin c = true) cs))%nat.
Proof.
  pose proof (run_records_and_entries max_args cs initial_state) as H.
  cbn [initial_state events execs length] in H.
  rewrite map_size_empty in H. lia.
Qed.

Lemma write_at_0 buf data : write_at buf 0 data = data ++ drop (length data) buf.
Proof. unfold write_at. change (Z.to_nat 0) with 0%nat. by rewrite take_0. Qed.

Lemma fill_record_args k entry slot :
  args (fill_record k entry slot) =
  if (0 <? args_size (base entry)) && (args_size (base entry) <=? FULL_MAX_ARGS_ARR)
  then write_at (args slot) 0 (take (Z.to_nat (args_size (base entry))) (args entry))
  else args slot.
Proof. unfold fill_record, bpf_probe_read_kernel. by destruct (_ && _). Qed.

(** X10. The end probe copies args_size bytes of the trailer and no more:
    the record it submits has the byte and string counts of the entry, the
    first args_size bytes of the entry's trailer, and after them whatever the
    reserved memory held before; nothing that lies beyond args_size in the
    entry reaches the consumer. Its retval is the return code cut to 32
    bits. *)
Theorem end_copies_only_args_size k ret slot entry st :
  wf_state st ->
  execs st !! current_pid k = Some entry ->
  let n := Z.to_nat (args_size (base entry)) in
  exists ev,
    events (tracepoint__syscalls__sys_exit_execve k ret (Some slot) st)
    = events st ++ [ev] /\
    retval (base ev) = s32 ret /\
    args_count (base ev) = args_count (base entry) /\
    args_size (base ev) = args_size (base entry) /\
    take n (args ev) = take n (args entry) /\
    drop n (args ev) = drop n (args slot).
Proof.
  intros [_ Hexecs] Hk n. rewrite (exit_hit _ _ _ _ entry) by done. cbn [events].
  eexists. split; [reflexivity|].
  destruct (Hexecs _ _ Hk) as ((Hsize & Hlen & _) & _).
  rewrite fill_record_base, fill_record_args.
  cbn [retval args_count args_size set_retval base args]. fold n.
  assert (Hn : length (take n (args entry)) = n) by (rewrite length_take; lia).
  destruct (Z.ltb_spec 0 (args_size (base entry))); cbn [andb].
  - destruct (Z.leb_spec (args_size (base entry)) FULL_MAX_ARGS_ARR); [|lia].
    rewrite write_at_0, Hn.
    split_and!; try done.
    + rewrite take_app_length'; done.
    + rewrite drop_app_length'; done.
  - replace n with 0%nat by lia. by split_and!.
Qed.

Lemma end_copies_only_args_size_witness :
  let st := tracepoint__syscalls__sys_enter_execve DEFAULT_MAXARGS ls_begin 4096
              initial_state in
  let entry := assembled DEFAULT_MAXARGS ls_begin 4096 initial_state in
  let n := Z.to_nat (args_size (base entry)) in
  exists ev,
    events (tracepoint__syscalls__sys_exit_execve ls_end (2 ^ 32 + 5)
              (Some event_zero) st)
    = events st ++ [ev] /\
    retval (base ev) = s32 (2 ^ 32 + 5) /\
    args_count (base ev) = args_count (base entry) /\
    args_size (base ev) = args_size (base entry) /\
    take n (args ev) = take n (args entry) /\
    drop n (args ev) = drop n (args event_zero).
Proof.
  apply (end_copies_only_args_size ls_end (2 ^ 32 + 5) event_zero
           (assembled DEFAULT_MAXARGS ls_begin 4096 initial_state)
           (tracepoint__syscalls__sys_enter_execve DEFAULT_MAXARGS ls_begin 4096
              initial_state)).
  - apply enter_wf. split; apply map_Forall_empty.
  - vm_compute. reflexivity.
Defined.

(** X11. Invocations running for other process ids, in any number and order,
    neither create, change nor remove the correlation entry of a process id:
    entries are only touched by probes of the process they belong to. *)
Theorem other_processes_keep_entry max_args cs st p :
  Forall (fun c => call_pid c <> p) cs ->
  execs (run max_args st cs) !! p = execs st !! p.
Proof. apply run_execs_other. Qed.

Lemma other_processes_keep_entry_witness :
  execs (run DEFAULT_MAXARGS initial_state
           [SysEnterExecve ls_begin 4096; SysExitExecve ls_end 0 None]) !! 7
  = execs initial_state !! 7.
Proof.
  apply (other_processes_keep_entry DEFAULT_MAXARGS
           [SysEnterExecve ls_begin 4096; SysExitExecve ls_end 0 None]
           initial_state 7).
  repeat constructor; vm_compute; discriminate.
Defined.

Lemma step_heap_other max_args st c cpu :
  scratch_cpu c <> Some cpu -> heap (step max_args st c) !! cpu = heap st !! cpu.
Proof.
  destruct c as [k argv|k ret reserved]; cbn [step scratch_cpu]; intros Hne.
  - rewrite enter_unfold. cbn [heap]. apply lookup_insert_ne. congruence.
  - destruct (execs st !! current_pid k) as [entry|] eqn:Hk.
    + by rewrite (exit_hit _ _ _ _ entry).
    + by rewrite exit_miss.
Qed.

(** X12. A scratch slot belongs to its CPU: it is written only by begin
    probes that run on that CPU. End probes, and begin probes on other CPUs,
    leave it as it is, so invocations on different CPUs never share scratch
    state. *)
Theorem scratch_slot_is_per_cpu max_args cs st cpu :
  Forall (fun c => scratch_cpu c <> Some cpu) cs ->
  heap (run max_args st cs) !! cpu = heap st !! cpu.
Proof.
  unfold run. revert st. induction cs as [|c cs IH]; intros st Hcs; simpl; [done|].
  inversion Hcs; subst. rewrite IH by done. by apply step_heap_other.
Qed.

Lemma scratch_slot_is_per_cpu_witness :
  heap (run DEFAULT_MAXARGS initial_state
          [SysEnterExecve ls_begin 4096; SysExitExecve ls_end 0 None]) !! 1%nat
  = heap initial_state !! 1%nat.
Proof.
  apply (scratch_slot_is_per_cpu DEFAULT_MAXARGS
           [SysEnterExecve ls_begin 4096; SysExitExecve ls_end 0 None]
           initial_state 1%nat).
  repeat constructor; vm_compute; discriminate.
Defined.

Lemma assembled_retval max_args k argv st :
  retval (base (assembled max_args k argv st)) = 0.
Proof.
  pose proof (scan_loop_identity k argv max_args 0
                (init_event k (default event_zero (heap st !! k_cpu k)))) as H.
  unfold identity in H. fold (assembled max_args k argv st) in H.
  by injection H as _ _ _ -> _.
Qed.

Lemma step_pending_retval max_args st c :
  map_Forall (fun _ e => retval (base e) = 0) (execs st) ->
  map_Forall (fun _ e => retval (base e) = 0) (execs (step max_args st c)).
Proof.
  intros Hinv. destruct c as [k argv|k ret reserved]; cbn [step].
  - rewrite enter_unfold. cbn [execs]. unfold bpf_map_update_elem.
    pose proof (assembled_retval max_args k argv st) as Hr.
    destruct (execs st !! current_pid k); cbn [snd].
    + by apply map_Forall_insert_2.
    + destruct (_ <? _); cbn [snd]; [by apply map_Forall_insert_2|done].
  - destruct (execs st !! current_pid k) as [entry|] eqn:Hk.
    + rewrite (exit_hit _ _ _ _ entry) by done. cbn [execs].
      by apply map_Forall_delete.
    + by rewrite exit_miss.
Qed.

Lemma run_pending_retval max_args cs : forall st,
  map_Forall (fun _ e => retval (base e) = 0) (execs st) ->
  map_Forall (fun _ e => retval (base e) = 0) (execs (run max_args st cs)).
Proof.
  unfold run. induction cs as [|c cs IH]; intros st Hinv; simpl; [done|].
  by apply IH, step_pending_retval.
Qed.

(** X13. In every state reached from empty maps, each pending correlation
    entry is filed under the process id it records, still has retval 0 (the
    return code is written only by the end probe that removes the entry), and
    satisfies the trailer invariant: at most FULL_MAX_ARGS_ARR bytes, made of
    args_count NUL-terminated strings from offset 0. *)
Theorem pending_entries_well_formed max_args cs p e :
  execs (run max_args initial_state cs) !! p = Some e ->
  pid (base e) = p /\ retval (base e) = 0 /\ trailer_inv e.
Proof.
  intros He.
  destruct (reachable_wf max_args cs) as [_ Hexecs].
  destruct (Hexecs _ _ He) as (Hinv & Hpid & _).
  pose proof (run_pending_retval max_args cs initial_state) as Hret.
  split_and!; [done| |done].
  apply (Hret (map_Forall_empty _) _ _ He).
Qed.

Lemma pending_entries_well_formed_witness :
  let e := assembled DEFAULT_MAXARGS ls_begin 4096 initial_state in
  pid (base e) = 100 /\ retval (base e) = 0 /\ trailer_inv e.
Proof.
  apply (pending_entries_well_formed DEFAULT_MAXARGS [SysEnterExecve ls_begin 4096]
           100 (assembled DEFAULT_MAXARGS ls_begin 4096 initial_state)).
  vm_compute. reflexivity.
Defined.

End ExecsnoopExtra.

(** * Further properties of the lifecycle emitters *)

Module ProcessCollectorExtra.
Import ProcessCollector ProcessCollectorSpec.

(** ** What a handler does to the state *)

Lemma step_emitting st c p :
  emits_for c = Some p ->
  exists ev,
    pid ev = p /\
    step st c =
    {| process_stats := update_process_stats p (process_stats st);
       process_events := process_events st ++ [ev];
       discarded := discarded st |}.
Proof.
  destruct c as [task ktime [event|]|task ktime [event|]|task ktime [event|]|code task];
    cbn [emits_for step]; intros [= <-].
  - unfold trace_process_fork. rewrite handler_unfold. eexists. split; [|reflexivity].
    apply populate_event_common_pid.
  - unfold trace_process_exec. rewrite handler_unfold. eexists. split; [|reflexivity].
    apply populate_event_common_pid.
  - unfold trace_process_exit. rewrite handler_unfold. eexists. split; [|reflexivity].
    apply populate_event_common_pid.
Qed.

Lemma step_silent st c :
  emits_for c = None -> is_kprobe c = false -> step st c = st.
Proof.
  destruct c as [task ktime [event|]|task ktime [event|]|task ktime [event|]|code task];
    cbn [emits_for step is_kprobe]; done.
Qed.

Lemma update_process_stats_size p stats :
  (size stats <= size (update_process_stats p stats))%nat /\
  (Z.of_nat (size stats) <= process_stats_max_entries ->
   Z.of_nat (size (update_process_stats p stats)) <= process_stats_max_entries) /\
  dom stats ⊆ dom (update_process_stats p stats).
Proof.
  rewrite update_process_stats_spec. destruct (stats !! p) eqn:Hp.
  - rewrite map_size_insert_Some by eauto.
    split_and!; [lia|done|apply dom_insert_subseteq].
  - destruct (Z.ltb_spec (Z.of_nat (size stats)) process_stats_max_entries).
    + rewrite map_size_insert_None by done.
      split_and!; [lia|lia|apply dom_insert_subseteq].
    + split_and!; [lia|done|done].
Qed.

Lemma step_stats_size st c :
  (size (process_stats st) <= size (process_stats (step st c)))%nat /\
  (Z.of_nat (size (process_stats st)) <= process_stats_max_entries ->
   Z.of_nat (size (process_stats (step st c))) <= process_stats_max_entries) /\
  dom (process_stats st) ⊆ dom (process_stats (step st c)).
Proof.
  destruct (emits_for c) as [p|] eqn:Hc.
  - destruct (step_emitting st c p Hc) as (ev & _ & ->). cbn [process_stats].
    apply update_process_stats_size.
  - destruct (is_kprobe c) eqn:Hk.
    + destruct c as [| | |code task]; try done. cbn [step]. unfold kprobe_do_fork.
      destruct (kernel_version_ge _ _ _ _); cbn [process_stats];
        [apply update_process_stats_size|done].
    + rewrite step_silent by done. done.
Qed.

Lemma run_stats_size cs : forall st,
  (size (process_stats st) <= size (process_stats (run st cs)))%nat /\
  (Z.of_nat (size (process_stats st)) <= process_stats_max_entries ->
   Z.of_nat (size (process_stats (run st cs))) <= process_stats_max_entries) /\
  dom (process_stats st) ⊆ dom (process_stats (run st cs)).
Proof.
  unfold run. induction cs as [|c cs IH]; intros st; simpl; [done|].
  destruct (step_stats_size st c) as (H1 & H2 & H3).
  destruct (IH (step st c)) as (H4 & H5 & H6).
  split_and!; [lia|auto|by etrans].
Qed.

(** X14. The counter table never holds more than its 1024 entries, and it
    never loses a process id: whatever invocations run, a bound that held
    before holds after, and every key present before is present after. *)
Theorem counter_table_bounded cs st :
  Z.of_nat (size (process_stats st)) <= process_stats_max_entries ->
  Z.of_nat (size (process_stats (run st cs))) <= process_stats_max_entries /\
  dom (process_stats st) ⊆ dom (process_stats (run st cs)).
Proof.
  intros Hb. destruct (run_stats_size cs st) as (_ & H & Hdom). auto.
Qed.

Lemma counter_table_bounded_witness :
  let cs := [Fork task_5000 0 (Some process_event_zero)] in
  Z.of_nat (size (process_stats (run full_state cs))) <= process_stats_max_entries /\
  dom (process_stats full_state) ⊆ dom (process_stats (run full_state cs)).
Proof.
  apply (counter_table_bounded [Fork task_5000 0 (Some process_event_zero)] full_state).
  vm_compute. discriminate.
Defined.

(** ** Counters against the stream of records *)

Lemma records_for_snoc p evs ev :
  records_for p (evs ++ [ev]) =
  (records_for p evs + (if decide (pid ev = p) then 1 else 0))%nat.
Proof.
  unfold records_for. rewrite filter_app, length_app, filter_cons, filter_nil.
  by destruct (decide (pid ev = p)).
Qed.

Lemma records_for_le p evs : (records_for p evs <= length evs)%nat.
Proof. unfold records_for. apply length_filter. Qed.

Lemma step_counters_match st c :
  is_kprobe c = false ->
  Z.of_nat (size (process_stats (step st c))) < process_stats_max_entries ->
  Z.of_nat (length (process_events st)) + 1 < 2 ^ 64 ->
  (forall p, counter st p = Z.of_nat (records_for p (process_events st))) ->
  forall p, counter (step st c) p = Z.of_nat (records_for p (process_events (step st c))).
Proof.
  intros Hk Hroom Hwrap Hinv p.
  destruct (emits_for c) as [q|] eqn:Hc; [|by rewrite step_silent].
  destruct (step_emitting st c q Hc) as (ev & Hev & Hst). rewrite Hst in *.
  unfold counter in *. cbn [process_stats process_events] in *.
  rewrite records_for_snoc, Hev, update_process_stats_spec.
  specialize (Hinv p) as Hp. pose proof (Hinv q) as Hq.
  pose proof (records_for_le q (process_events st)) as Hle.
  rewrite update_process_stats_spec in Hroom.
  destruct (process_stats st !! q) as [m|] eqn:Hm; simpl in Hq.
  - destruct (decide (q = p)) as [->|Hne].
    + rewrite lookup_insert_eq. simpl. rewrite u64_small by lia. lia.
    + rewrite lookup_insert_ne by done. lia.
  - destruct (Z.ltb_spec (Z.of_nat (size (process_stats st))) process_stats_max_entries).
    + destruct (decide (q = p)) as [->|Hne].
      * rewrite lookup_insert_eq. simpl. lia.
      * rewrite lookup_insert_ne by done. lia.
    + lia.
Qed.

Lemma run_counters_match cs : forall st,
  Forall (fun c => is_kprobe c = false) cs ->
  Z.of_nat (size (process_stats (run st cs))) < process_stats_max_entries ->
  Z.of_nat (length (process_events st)) + Z.of_nat (length cs) < 2 ^ 64 ->
  (forall p, counter st p = Z.of_nat (records_for p (process_events st))) ->
  forall p, counter (run st cs) p = Z.of_nat (records_for p (process_events (run st cs))).
Proof.
  unfold run. induction cs as [|c cs IH]; intros st Hk Hroom Hwrap Hinv; simpl in *;
    [done|].
  inversion Hk; subst.
  assert (Hlen : (length (process_events (step st c)) <= S (length (process_events st)))%nat).
  { destruct (emits_for c) as [q|] eqn:Hc.
    - destruct (step_emitting st c q Hc) as (ev & _ & ->). cbn [process_events].
      rewrite length_app. simpl. lia.
    - rewrite step_silent by done. lia. }
  apply IH; [done|done|lia|].
  apply step_counters_match; [done| |lia|done].
  pose proof (run_stats_size cs (step st c)) as (Hs & _). unfold run in Hs. lia.
Qed.

(** X15. While the counter table has room and the optional kprobe is not in
    play, counters and records agree: starting from empty maps, if the table
    ends with fewer than 1024 entries, the counter of every process id (0 when
    it has none) equals the number of submitted records that carry this id. In
    particular an invocation whose reservation fails counts nothing. *)
Theorem counters_match_records cs p :
  Forall (fun c => is_kprobe c = false) cs ->
  Z.of_nat (size (process_stats (run initial_state cs))) < process_stats_max_entries ->
  Z.of_nat (length cs) < 2 ^ 64 ->
  counter (run initial_state cs) p
  = Z.of_nat (records_for p (process_events (run initial_state cs))).
Proof.
  intros Hk Hroom Hwrap. apply run_counters_match; try done.
Qed.

Lemma counters_match_records_witness :
  let cs := [Fork task_5000 0 (Some process_event_zero);
             Exec task_5000 1 None;
             Exit task_5000 2 (Some process_event_zero)] in
  counter (run initial_state cs) 5000
  = Z.of_nat (records_for 5000 (process_events (run initial_state cs))).
Proof.
  apply (counters_match_records
           [Fork task_5000 0 (Some process_event_zero);
            Exec task_5000 1 None;
            Exit task_5000 2 (Some process_event_zero)] 5000).
  - repeat constructor.
  - vm_compute. reflexivity.
  - vm_compute. reflexivity.
Defined.

(** ** What a record holds *)

Lemma populate_event_common_populated slot task ktime :
  populated task ktime slot (snd (populate_event_common slot task ktime)).
Proof.
  unfold populated, populate_event_common.
  destruct (t_real_parent task), (t_real_cred task) as [[? ?]|]; by split_and!.
Qed.

(** X16. A lifecycle record takes pid and timestamp from the current task and
    the clock; ppid is read only when the task has a parent, uid and gid only
    when it has credentials, and otherwise these fields keep what the reserved
    memory held before. Fork and exec records carry exit code 0 and kinds 0
    and 1, exit records the exit code of the task and kind 2. *)
Theorem lifecycle_record_content task ktime slot st :
  (exists ev,
     process_events (trace_process_fork task ktime (Some slot) st)
     = process_events st ++ [ev] /\
     populated task ktime slot ev /\ exit_code ev = 0 /\ event_type ev = 0) /\
  (exists ev,
     process_events (trace_process_exec task ktime (Some slot) st)
     = process_events st ++ [ev] /\
     populated task ktime slot ev /\ exit_code ev = 0 /\ event_type ev = 1) /\
  (exists ev,
     process_events (trace_process_exit task ktime (Some slot) st)
     = process_events st ++ [ev] /\
     populated task ktime slot ev /\
     exit_code ev = u32 (t_exit_code task) /\ event_type ev = 2).
Proof.
  pose proof (populate_event_common_populated slot task ktime) as Hp.
  split_and!.
  - unfold trace_process_fork. rewrite handler_unfold. eexists.
    split; [reflexivity|]. by split_and!.
  - unfold trace_process_exec. rewrite handler_unfold. eexists.
    split; [reflexivity|]. by split_and!.
  - unfold trace_process_exit. rewrite handler_unfold. eexists.
    split; [reflexivity|]. by split_and!.
Qed.

(** A record of a task without parent and credentials, built in memory that
    held an earlier record, shows the earlier ppid, uid and gid. *)
Example orphan_record_keeps_old_fields :
  exists ev,
    process_events (trace_process_exit orphan_task 0 (Some used_slot) initial_state)
    = [ev] /\
    pid ev = 77 /\ ppid ev = 6 /\ uid ev = 1000 /\ gid ev = 1000 /\ exit_code ev = 256.
Proof. eexists. vm_compute. by split_and!. Qed.

(** ** Kernel version checks *)

(** Within the range of a 32-bit [int] the macro does not wrap. *)
Lemma KERNEL_VERSION_eq a b c :
  0 <= a < 32768 -> 0 <= b < 256 -> 0 <= c ->
  KERNEL_VERSION a b c = a * 65536 + b * 256 + Z.min c 255.
Proof.
  intros Ha Hb Hc. unfold KERNEL_VERSION. rewrite !Z.shiftl_mul_pow2 by lia.
  change (2 ^ 16) with 65536. change (2 ^ 8) with 256.
  destruct (Z.ltb_spec 255 c);
    [rewrite Z.min_r by lia|rewrite Z.min_l by lia];
    apply ExecsnoopSpec.s32_small; lia.
Qed.

Lemma KERNEL_VERSION_clamp a b c :
  255 <= c -> KERNEL_VERSION a b c = KERNEL_VERSION a b 255.
Proof.
  intros Hc. unfold KERNEL_VERSION.
  destruct (Z.ltb_spec 255 c); [done|]. by replace c with 255 by lia.
Qed.

Lemma KERNEL_VERSION_mono a b c a' b' c' :
  0 <= a < 32768 -> 0 <= a' < 32768 ->
  0 <= b < 256 -> 0 <= b' < 256 -> 0 <= c -> 0 <= c' ->
  version_le a b c a' b' c' ->
  KERNEL_VERSION a b c <= KERNEL_VERSION a' b' c'.
Proof.
  intros Ha Ha' Hb Hb' Hc Hc' Hle. rewrite !KERNEL_VERSION_eq by done.
  unfold version_le in Hle. lia.
Qed.

(** X17. The two version checks respect the order of versions, as long as
    the version numbers do not make the 32-bit KERNEL_VERSION wrap: for major
    numbers from 0 to 32767, minor numbers from 0 to 255 and non-negative
    patch levels, a kernel that passes kernel_version_ge for a version passes
    it for every earlier version, and one that passes kernel_version_le passes
    it for every later version; patch levels from 255 on are not told apart. *)
Theorem version_checks_follow_order code a b c a' b' c' :
  0 <= a < 32768 -> 0 <= a' < 32768 ->
  0 <= b < 256 -> 0 <= b' < 256 -> 0 <= c -> 0 <= c' ->
  version_le a b c a' b' c' ->
  (kernel_version_ge code a' b' c' = true -> kernel_version_ge code a b c = true) /\
  (kernel_version_le code a b c = true -> kernel_version_le code a' b' c' = true) /\
  (255 <= c -> kernel_version_ge code a b c = kernel_version_ge code a b 255).
Proof.
  intros Ha Ha' Hb Hb' Hc Hc' Hle.
  pose proof (KERNEL_VERSION_mono a b c a' b' c' Ha Ha' Hb Hb' Hc Hc' Hle) as Hmono.
  unfold kernel_version_ge, kernel_version_le. split_and!.
  - intros H%Z.leb_le. apply Z.leb_le. lia.
  - intros H%Z.leb_le. apply Z.leb_le. lia.
  - intros H255. by rewrite (KERNEL_VERSION_clamp a b c).
Qed.

Lemma version_checks_follow_order_witness :
  (kernel_version_ge (KERNEL_VERSION 5 10 0) 5 4 0 = true ->
   kernel_version_ge (KERNEL_VERSION 5 10 0) 4 18 300 = true) /\
  (kernel_version_le (KERNEL_VERSION 5 10 0) 4 18 300 = true ->
   kernel_version_le (KERNEL_VERSION 5 10 0) 5 4 0 = true) /\
  (255 <= 300 ->
   kernel_version_ge (KERNEL_VERSION 5 10 0) 4 18 300
   = kernel_version_ge (KERNEL_VERSION 5 10 0) 4 18 255).
Proof.
  apply (version_checks_follow_order (KERNEL_VERSION 5 10 0) 4 18 300 5 4 0).
  - lia.
  - lia.
  - lia.
  - lia.
  - lia.
  - lia.
  - left. lia.
Defined.

(** Outside that range the macro wraps and the order is lost: with code 0 the
    check passes for 65536.0.0 and fails for 4.18.0. *)
Example version_check_wraps :
  KERNEL_VERSION 65536 0 0 = 0 /\
  KERNEL_VERSION 32768 0 0 = - 2 ^ 31 /\
  kernel_version_ge 0 65536 0 0 = true /\
  kernel_version_ge 0 4 18 0 = false.
Proof. vm_compute. by split_and!. Qed.

(** X18. When the build does not provide LINUX_VERSION_CODE the header sets
    it to 0: then kernel_version_ge fails and kernel_version_le holds for
    every version other than 0.0.0 whose numbers do not make the 32-bit
    KERNEL_VERSION wrap (major from 0 to 32767, minor from 0 to 255, patch
    non-negative), so the body of the optional kprobe, which is guarded by
    kernel_version_ge(4, 18, 0), never runs and the kprobe leaves the state as
    it is. *)
Theorem default_version_code_disables_ge a b c task st :
  0 <= a < 32768 -> 0 <= b < 256 -> 0 <= c -> 0 < a + b + c ->
  kernel_version_ge DEFAULT_LINUX_VERSION_CODE a b c = false /\
  kernel_version_le DEFAULT_LINUX_VERSION_CODE a b c = true /\
  kprobe_do_fork DEFAULT_LINUX_VERSION_CODE task st = st.
Proof.
  intros Ha Hb Hc Hpos.
  unfold kernel_version_ge, kernel_version_le, kprobe_do_fork, kernel_version_ge,
    DEFAULT_LINUX_VERSION_CODE.
  rewrite (KERNEL_VERSION_eq a b c), (KERNEL_VERSION_eq 4 18 0) by lia.
  split_and!.
  - apply Z.leb_gt. lia.
  - apply Z.leb_le. lia.
  - by destruct (Z.leb_spec (4 * 65536 + 18 * 256 + 0 `min` 255) 0); [lia|].
Qed.

Lemma default_version_code_disables_ge_witness :
  kernel_version_ge DEFAULT_LINUX_VERSION_CODE 4 18 0 = false /\
  kernel_version_le DEFAULT_LINUX_VERSION_CODE 4 18 0 = true /\
  kprobe_do_fork DEFAULT_LINUX_VERSION_CODE task_5000 full_state = full_state.
Proof.
  apply (default_version_code_disables_ge 4 18 0 task_5000 full_state); lia.
Defined.

End ProcessCollectorExtra.
